(** * Coordination helpers of pouchdb-utils: a shallow embedding

    Source: [src/lib/index-browser.es.js].  The file embeds the retry
    backoff ([randomNumber], [defaultBackOff]), the bulk-get shim
    ([bulkGet]), the change-feed listener ([Changes.addListener]), the
    change filter ([tryFilter], [filterChange]) and the entry guard of
    [adapterFun], and proves properties of them. *)

From Stdlib Require Import ZArith Lia Bool Sorted.
From stdpp Require Import gmap strings list.

(** ** IEEE 754 binary64 arithmetic on scaled integers

    Every finite double is an integer multiple of [2^-1074].  A double [x]
    is represented by the integer [x * 2^1074]; rounding to nearest, ties to
    even, with a 53 bit significand is then a function on [Z].  Values below
    [2^53] on that grid are kept as they are, which is what the subnormal
    range of the format does.  Overflow to infinity is not represented: the
    computations below stay far under [2^1024]. *)
Module Binary64.
Local Open Scope Z_scope.

Definition scale : Z := 2 ^ 1074.

(** The double whose value is the integer [n] (exact for [|n| <= 2^53]). *)
Definition of_int (n : Z) : Z := n * scale.

(** [a / 2^s] rounded to the nearest integer, ties to the even one. *)
Definition rne (a s : Z) : Z :=
  let q := a / 2 ^ s in
  let r := a mod 2 ^ s in
  let h := 2 ^ (s - 1) in
  if r <? h then q
  else if h <? r then q + 1
  else if Z.even q then q else q + 1.

Definition round_pos (a : Z) : Z :=
  let s := Z.log2 a - 52 in
  if s <=? 0 then a else rne a s * 2 ^ s.

(** Round an exact value on the [2^-1074] grid to the nearest double. *)
Definition round (a : Z) : Z :=
  if a <? 0 then - round_pos (- a) else round_pos a.

(** [x] is (the representation of) a double. *)
Definition is_double (x : Z) : Prop := round x = x.

(** Product of an integer-valued double [n] and a double [x]. *)
Definition mul_int (n x : Z) : Z := round (n * x).

Definition add (x y : Z) : Z := round (x + y).

(** Integer part, towards zero. *)
Definition trunc (x : Z) : Z := Z.quot x scale.

(** ToInt32 on an integer. *)
Definition toInt32 (z : Z) : Z := (z + 2 ^ 31) mod 2 ^ 32 - 2 ^ 31.

(** [~~x]: truncate, then wrap to 32 bits. *)
Definition double_tilde (x : Z) : Z := toInt32 (trunc x).

(** [a << 1] and [a >> 1] on integer-valued doubles. *)
Definition shl1 (a : Z) : Z := toInt32 (Z.shiftl (toInt32 a) 1).
Definition sar1 (a : Z) : Z := Z.shiftr (toInt32 a) 1.

(** The largest double below 1, [1 - 2^-53]. *)
Definition pred_one : Z := scale - 2 ^ 1021.

End Binary64.

(** ** Backoff: [randomNumber] and [defaultBackOff] *)
Module Backoff.
Import Binary64.
Local Open Scope Z_scope.

(** An argument of the backoff functions: [undefined], or a Number with an
    integer value (delays are integer milliseconds; [|z| < 2^52] keeps every
    integer computed below exact in binary64 and printed without exponent,
    so that [parseInt] gives it back). *)
Inductive jsnum : Type :=
| Undefined
| Num (z : Z).

(** [parseInt(v, 10)]; [None] is NaN. *)
Definition parseInt10 (v : jsnum) : option Z :=
  match v with
  | Undefined => None
  | Num z => Some z
  end.

(** [x || d] on a Number: NaN and 0 are falsy. *)
Definition or_default (x : option Z) (d : Z) : Z :=
  match x with
  | None => d
  | Some z => if z =? 0 then d else z
  end.

Definition maxTimeout : Z := 600000.

(** [randomNumber(min, max)], with [ratio] the double that [Math.random()]
    returns. *)
Definition randomNumber (min max : jsnum) (ratio : Z) : Z :=
  let min0 := or_default (parseInt10 min) 0 in
  let max0 := parseInt10 max in
  let max1 :=
    match max0 with
    | None => shl1 (or_default (Some min0) 1)
    | Some m => if m <=? min0 then shl1 (or_default (Some min0) 1) else m + 1
    end in
  let '(min2, max2) :=
    if maxTimeout <? max1 then (sar1 maxTimeout, maxTimeout) else (min0, max1) in
  let range := max2 - min2 in
  double_tilde (add (mul_int range ratio) (of_int min2)).

(** The two halves of [randomNumber], for the proofs: the window that the
    first part of the body computes, and the draw of its last three lines. *)
Definition window (min max : jsnum) : Z * Z :=
  let min0 := or_default (parseInt10 min) 0 in
  let max1 :=
    match parseInt10 max with
    | None => shl1 (or_default (Some min0) 1)
    | Some m => if m <=? min0 then shl1 (or_default (Some min0) 1) else m + 1
    end in
  if maxTimeout <? max1 then (sar1 maxTimeout, maxTimeout) else (min0, max1).

Definition draw (lo hi ratio : Z) : Z :=
  double_tilde (add (mul_int (hi - lo) ratio) (of_int lo)).

(** [!min] *)
Definition falsy (v : jsnum) : bool :=
  match v with
  | Undefined => true
  | Num z => z =? 0
  end.

Definition defaultBackOff (min : jsnum) (ratio : Z) : Z :=
  let max := if falsy min then Num 2000 else Num 0 in
  randomNumber min max ratio.

End Backoff.

(** ** JavaScript values *)
Module JS.

#[warnings="-register-all"]
Inductive value : Type :=
| VUndefined
| VNull
| VBool (b : bool)
| VNum (n : Z)
| VStr (s : string)
| VArr (l : list value)
| VObj (o : gmap string value).

(** ToBoolean (NaN is not represented). *)
Definition truthy (v : value) : bool :=
  match v with
  | VUndefined | VNull => false
  | VBool b => b
  | VNum n => negb (n =? 0)%Z
  | VStr s => negb (String.eqb s "")
  | VArr _ | VObj _ => true
  end.

(** [pick(obj, arr)]: the properties of [obj] named in [arr]. *)
Definition pick (obj : gmap string value) (arr : list string) : gmap string value :=
  foldl (fun res prop =>
           match obj !! prop with
           | Some v => <[prop := v]> res
           | None => res
           end) ∅ arr.

End JS.

(** ** The bulk-get shim: [bulkGet] *)
Module BulkGet.
Import JS.

(** One entry of [opts.docs].  A property that is absent is [None]; an
    absent [rev] reads as [VUndefined]. *)
Record request : Type := Request {
  req_id : string;
  req_rev : value;
  req_atts_since : option value;
  req_attachments : option value
}.

(** The request as the object that [pick] reads. *)
Definition request_obj (r : request) : gmap string value :=
  let o0 : gmap string value := {[ "id" := VStr (req_id r) ]} in
  let o1 := match req_rev r with VUndefined => o0 | v => <["rev" := v]> o0 end in
  let o2 := match req_atts_since r with Some v => <["atts_since" := v]> o1 | None => o1 end in
  match req_attachments r with Some v => <["attachments" := v]> o2 | None => o2 end.

Definition MAX_NUM_CONCURRENT_REQUESTS : nat := 6.

Definition formatResultForOpenRevsGet (result : value) : value :=
  VArr [VObj {[ "ok" := result ]}].

(** [requestsById]: a Map in insertion order, id to the requests for it. *)
Fixpoint group_add (r : request) (m : list (string * list request)) :
  list (string * list request) :=
  match m with
  | [] => [(req_id r, [r])]
  | (k, rs) :: m' =>
      if String.eqb k (req_id r) then (k, rs ++ [r]) :: m'
      else (k, rs) :: group_add r m'
  end.

Definition requestsById (requests : list request) : list (string * list request) :=
  foldl (fun m r => group_add r m) [] requests.

(** [requestsById.get(docId)] *)
Fixpoint get_group (m : list (string * list request)) (docId : string) : list request :=
  match m with
  | [] => []
  | (k, rs) :: m' => if String.eqb k docId then rs else get_group m' docId
  end.

Definition group_sizes (m : list (string * list request)) : list nat :=
  map (fun g => length (snd g)) m.

(** The keys pushed by [requestsById.forEach]. *)
Definition allRequests (requests : list request) : list string :=
  map fst (requestsById requests).

(** The names copied from the global options onto every fetch. *)
Definition global_params : list string :=
  ["revs"; "attachments"; "binary"; "ajax"; "latest"].

(** The loop over the globally supplied options. *)
Definition with_globals (opts docOpts : gmap string value) (params : list string) :
  gmap string value :=
  foldl (fun d param =>
           match opts !! param with
           | Some v => <[param := v]> d
           | None => d
           end) docOpts params.

(** The options of the fetch for one id, and whether the result is to be
    wrapped by [formatResultForOpenRevsGet] ([true]) or passed through
    [identityFunction] ([false]).  Groups are never empty; the first request
    is the template. *)
Definition docOptsFor (opts : gmap string value) (docRequests : list request) :
  gmap string value * bool :=
  let docOpts0 :=
    match docRequests with
    | r0 :: _ => pick (request_obj r0) ["atts_since"; "attachments"]
    | [] => ∅
    end in
  let open_revs := List.filter truthy (map req_rev docRequests) in
  let '(docOpts1, wrap) :=
    if (length open_revs =? 0)%nat
    then (delete "open_revs" docOpts0, true)
    else (<["open_revs" := VArr open_revs]> docOpts0, false) in
  (with_globals opts docOpts1 global_params, wrap).

(** A [db.get] call whose callback has not run yet. *)
Record fetch : Type := Fetch {
  f_idx : nat;
  f_id : string;
  f_opts : gmap string value;
  f_wrap : bool
}.

(** What the store passes to the callback of [db.get]: a truthy [err], or a
    result. *)
Inductive response : Type :=
| GetErr (err : value)
| GetOk (res : value).

(** A slot of [perDocResults]. *)
Record per_doc : Type := PerDoc { pd_id : string; pd_docs : value }.

(** An element of the [results] array handed to the callback. *)
Record entry : Type := Entry { e_id : string; e_docs : list value }.

(** The state of one invocation.  [finished] collects the arguments of the
    calls of [callback]; [issued] logs every [db.get] call. *)
Record state : Type := State {
  i : nat;
  numDone : nat;
  perDocResults : list (option per_doc);
  inflight : list fetch;
  issued : list fetch;
  finished : list (list entry)
}.

(** [collapseResultsAndFinish], up to the call of [callback].  [forEach]
    skips the holes of [perDocResults]; [res.docs.forEach] throws when
    [docs] is not an array ([None]). *)
Fixpoint collapseResults (slots : list (option per_doc)) : option (list entry) :=
  match slots with
  | [] => Some []
  | None :: rest => collapseResults rest
  | Some res :: rest =>
      match pd_docs res, collapseResults rest with
      | VArr infos, Some more =>
          Some (map (fun info => Entry (pd_id res) [info]) infos ++ more)
      | _, _ => None
      end
  end.

(** The entries that one slot contributes to [results]. *)
Definition explode (res : per_doc) : list entry :=
  match pd_docs res with
  | VArr infos => map (fun info => Entry (pd_id res) [info]) infos
  | _ => []
  end.

Section Invocation.
Variable opts : gmap string value.
Variable requests : list request.

Definition numDocs : nat := length (requestsById requests).

(** The [db.get] call that [processBatch] makes for [docId] at index
    [offset + j]. *)
Definition fetch_for (docIdx : nat) (docId : string) : fetch :=
  let docRequests := get_group (requestsById requests) docId in
  let '(docOpts, wrap) := docOptsFor opts docRequests in
  Fetch docIdx docId docOpts wrap.

(** [processBatch(batch, offset)]: one [db.get] per id of the batch.  The
    store answers asynchronously, so no callback runs here. *)
Fixpoint processBatch (batch : list string) (offset : nat) (st : state) : state :=
  match batch with
  | [] => st
  | docId :: rest =>
      let f := fetch_for offset docId in
      processBatch rest (S offset)
        (State (i st) (numDone st) (perDocResults st)
               (inflight st ++ [f]) (issued st ++ [f]) (finished st))
  end.

Definition nextBatch (st : state) : state :=
  let all := allRequests requests in
  if (length all <=? i st)%nat then st
  else
    let upTo := Nat.min (i st + MAX_NUM_CONCURRENT_REQUESTS) (length all) in
    let batch := take (upTo - i st) (drop (i st) all) in
    let st' := processBatch batch (i st) st in
    State (i st + length batch) (numDone st') (perDocResults st')
          (inflight st') (issued st') (finished st').

(** [gotResult(docIndex, id, docs)] with [checkDone] inlined; [None] when
    [collapseResultsAndFinish] throws.  [docIndex] is below [numDocs] in
    every run, so the assignment never extends the array. *)
Definition gotResult (docIndex : nat) (id : string) (docs : value) (st : state) :
  option state :=
  let slots := <[docIndex := Some (PerDoc id docs)]> (perDocResults st) in
  let done := S (numDone st) in
  if (done =? numDocs)%nat then
    match collapseResults slots with
    | Some results =>
        Some (State (i st) done slots (inflight st) (issued st)
                    (finished st ++ [results]))
    | None => None
    end
  else Some (State (i st) done slots (inflight st) (issued st) (finished st)).

(** The body of [bulkGet]: build the tables and start the first batch. *)
Definition bulkGet : state :=
  nextBatch (State 0 0 (replicate numDocs None) [] [] []).

(** The store runs the callback of the fetch with index [idx]. *)
Inductive event : Type :=
| Complete (idx : nat) (resp : response).

Fixpoint take_fetch (idx : nat) (l : list fetch) : option (fetch * list fetch) :=
  match l with
  | [] => None
  | f :: l' =>
      if (f_idx f =? idx)%nat then Some (f, l')
      else match take_fetch idx l' with
           | Some (g, l'') => Some (g, f :: l'')
           | None => None
           end
  end.

(** The [result] that the callback of [db.get] computes. *)
Definition result_of (f : fetch) (resp : response) : value :=
  match resp with
  | GetErr err => VArr [VObj {[ "error" := err ]}]
  | GetOk res => if f_wrap f then formatResultForOpenRevsGet res else res
  end.

(** The callback given to [db.get].  An event for a fetch that is not in
    flight does not occur and leaves the state as it is.  When
    [collapseResultsAndFinish] throws, [gotResult] has stored the slot and
    counted it, and neither [callback] nor [nextBatch] runs. *)
Definition step (st : state) (ev : event) : state :=
  match ev with
  | Complete idx resp =>
      match take_fetch idx (inflight st) with
      | None => st
      | Some (f, others) =>
          let result := result_of f resp in
          let st0 := State (i st) (numDone st) (perDocResults st) others
                           (issued st) (finished st) in
          match gotResult (f_idx f) (f_id f) result st0 with
          | Some st1 => nextBatch st1
          | None =>
              State (i st) (S (numDone st))
                    (<[f_idx f := Some (PerDoc (f_id f) result)]> (perDocResults st))
                    others (issued st) (finished st)
          end
      end
  end.

Definition run (evs : list event) : state := foldl step bulkGet evs.

(** The fetches for the ids of [batch], from index [offset] on. *)
Fixpoint fetches_from (offset : nat) (batch : list string) : list fetch :=
  match batch with
  | [] => []
  | docId :: rest => fetch_for offset docId :: fetches_from (S offset) rest
  end.

(** The store answers the fetch for an id with as many entries as there
    are requests for that id. *)
Definition answers_each_request (ev : event) : bool :=
  match ev with
  | Complete idx resp =>
      match allRequests requests !! idx with
      | None => true
      | Some docId =>
          match result_of (fetch_for idx docId) resp with
          | VArr infos =>
              (length infos =? length (get_group (requestsById requests) docId))%nat
          | _ => false
          end
      end
  end.

(** A slot that holds as many entries as its id has requests. *)
Definition slot_conforms (pd : per_doc) : Prop :=
  exists infos, pd_docs pd = VArr infos /\
    length infos = length (get_group (requestsById requests) (pd_id pd)).

(** The invariant of an invocation, for the proofs. *)
Record inv (st : state) : Prop := Inv {
  inv_len : length (perDocResults st) = numDocs;
  inv_i : i st <= numDocs;
  inv_filled : forall k pd, perDocResults st !! k = Some (Some pd) ->
     k < i st /\ allRequests requests !! k = Some (pd_id pd) /\
     k ∉ map f_idx (inflight st);
  inv_pending : forall k, k < i st -> perDocResults st !! k = Some None ->
     k ∈ map f_idx (inflight st);
  inv_inflight : Forall (fun f => f_idx f < i st /\
                                 allRequests requests !! f_idx f = Some (f_id f) /\
                                 f = fetch_for (f_idx f) (f_id f)) (inflight st);
  inv_nodup : NoDup (map f_idx (inflight st));
  inv_done : numDone st = length (omap id (perDocResults st));
  inv_early : numDone st < numDocs -> finished st = [];
  inv_once : forall results, In results (finished st) ->
     finished st = [results] /\ numDone st = numDocs /\
     collapseResults (perDocResults st) = Some results;
  inv_fired : 0 < numDocs -> numDone st = numDocs -> finished st = [] ->
     collapseResults (perDocResults st) = None;
  inv_issued : issued st = fetches_from 0 (take (i st) (allRequests requests))
}.

(** The batch that [nextBatch] starts. *)
Definition next_upTo (st : state) : nat :=
  Nat.min (i st + MAX_NUM_CONCURRENT_REQUESTS) numDocs.

Definition next_batch (st : state) : list string :=
  take (next_upTo st - i st) (drop (i st) (allRequests requests)).

(** While ids remain to be started, some fetch is in flight. *)
Definition live (st : state) : Prop :=
  i st < numDocs -> inflight st <> [].

End Invocation.

(** Sample invocations: eight requests for eight ids; two requests for one
    id; two revisions of one document and another document, with the
    answers of a store; a global [atts_since]. *)
Definition plain_request (docId : string) : request :=
  Request docId VUndefined None None.

Definition eight_ids : list request :=
  map plain_request ["doc1"; "doc2"; "doc3"; "doc4"; "doc5"; "doc6"; "doc7"; "doc8"].

Definition twice_doc1 : list request :=
  [plain_request "doc1"; plain_request "doc1"].

Definition two_revs_and_one : list request :=
  [Request "doc1" (VStr "1-a") None None;
   Request "doc1" (VStr "2-b") None None;
   plain_request "doc2"].

Definition two_revs_answers : list event :=
  [Complete 1 (GetOk (VStr "winner of doc2"));
   Complete 0 (GetOk (VArr [VStr "doc1 at 1-a"; VStr "doc1 at 2-b"]))].

Definition two_revs_results : list entry :=
  [Entry "doc1" [VStr "doc1 at 1-a"];
   Entry "doc1" [VStr "doc1 at 2-b"];
   Entry "doc2" [VObj {[ "ok" := VStr "winner of doc2" ]}]].

Definition global_atts_since : gmap string value :=
  {[ "atts_since" := VArr [VStr "1-a"]; "revs" := VBool true ]}.

End BulkGet.

(** ** The change-feed listener: [Changes.addListener] *)
Module Changes.
Import JS.

(** [inprogress]: [false], [true] or ["waiting"]. *)
Inductive progress : Type :=
| Idle
| Running
| Waiting.

(** A change event of the store; [c.seq] is a Number with an integer
    value. *)
Record change : Type := Change { seq : Z; body : gmap string value }.

(** [a > b] for a Number [a]; comparing with [undefined] is false.  Other
    operands are not represented and compare false. *)
Definition gt_value (a : Z) (b : option value) : bool :=
  match b with
  | Some (VNum n) => (n <? a)%Z
  | _ => false
  end.

(** [!opts.cancelled] *)
Definition not_cancelled (opts : gmap string value) : bool :=
  match opts !! "cancelled" with
  | Some v => negb (truthy v)
  | None => true
  end.

Definition changes_params : list string :=
  ["style"; "include_docs"; "attachments"; "conflicts"; "filter";
   "doc_ids"; "view"; "since"; "query_params"; "binary"; "return_docs"].

(** One listener created by [addListener(dbName, id, db, opts)]: the
    variables its closures share, and what it has done so far.

    - [listed]: [self._listeners[id]] is set and [eventFunction] is attached
      to [dbName] (both are done and undone together);
    - [opts]: the object given to [addListener], shared with the consumer;
    - [upstream]: the [db.changes] calls that have emitted neither
      [complete] nor [error];
    - [calls]: the options of every [db.changes] call, oldest first;
    - [immediates]: the [eventFunction] callbacks queued by [immediate];
    - [delivered]: the calls of [opts.onChange], each with the value of
      [opts.since] at the time of the call. *)
Record state : Type := State {
  listed : bool;
  inprogress : progress;
  opts : gmap string value;
  upstream : nat;
  calls : list (gmap string value);
  immediates : nat;
  delivered : list (change * option value)
}.

(** The listener just after [addListener] returned. *)
Definition addListener (opts0 : gmap string value) : state :=
  State true Idle opts0 0 [] 0 [].

Definition eventFunction (st : state) : state :=
  if negb (listed st) then st
  else
    match inprogress st with
    | Running | Waiting =>
        State (listed st) Waiting (opts st) (upstream st) (calls st)
              (immediates st) (delivered st)
    | Idle =>
        let changesOpts := pick (opts st) changes_params in
        State (listed st) Running (opts st) (S (upstream st))
              (calls st ++ [changesOpts]) (immediates st) (delivered st)
    end.

(** The handler of ["change"]. *)
Definition onChangeEvent (c : change) (st : state) : state :=
  if gt_value (seq c) (opts st !! "since") && not_cancelled (opts st) then
    let opts' := <["since" := VNum (seq c)]> (opts st) in
    State (listed st) (inprogress st) opts' (upstream st) (calls st)
          (immediates st) (delivered st ++ [(c, opts' !! "since")])
  else st.

(** The handler of ["complete"]. *)
Definition onComplete (st : state) : state :=
  let queued :=
    match inprogress st with
    | Waiting => S (immediates st)
    | _ => immediates st
    end in
  State (listed st) Idle (opts st) (pred (upstream st)) (calls st)
        queued (delivered st).

(** [onError] *)
Definition onError (st : state) : state :=
  State (listed st) Idle (opts st) (pred (upstream st)) (calls st)
        (immediates st) (delivered st).

Definition removeListener (st : state) : state :=
  State false (inprogress st) (opts st) (upstream st) (calls st)
        (immediates st) (delivered st).

(** What can happen to a listener:
    - [Emit]: the emitter fires [dbName] ([notify], or a storage event);
    - [Immediate]: a callback queued by [immediate] runs;
    - [Incoming c], [Complete], [Error]: the upstream call emits a change,
      or ends;
    - [Remove]: [removeListener(dbName, id)];
    - [Cancel]: the consumer sets [opts.cancelled]. *)
Inductive event : Type :=
| Emit
| Immediate
| Incoming (c : change)
| Complete
| Error
| Remove
| Cancel.

(** An upstream call ends once, with [complete] or [error]: these two occur
    only while a call is in flight.  [Emit] reaches [eventFunction] only
    while it is attached. *)
Definition step (st : state) (ev : event) : state :=
  match ev with
  | Emit => if listed st then eventFunction st else st
  | Immediate =>
      match immediates st with
      | O => st
      | S n =>
          eventFunction
            (State (listed st) (inprogress st) (opts st) (upstream st)
                   (calls st) n (delivered st))
      end
  | Incoming c => onChangeEvent c st
  | Complete => match upstream st with O => st | S _ => onComplete st end
  | Error => match upstream st with O => st | S _ => onError st end
  | Remove => removeListener st
  | Cancel =>
      State (listed st) (inprogress st) (<["cancelled" := VBool true]> (opts st))
            (upstream st) (calls st) (immediates st) (delivered st)
  end.

Definition run (opts0 : gmap string value) (evs : list event) : state :=
  foldl step (addListener opts0) evs.

(** A subscription that starts at sequence number 0, and two changes. *)
Definition since_zero : gmap string value := {[ "since" := VNum 0 ]}.

(** Invariants of the listener, for the proofs: the run state tells how
    many upstream calls are in flight, and the watermark bounds what has
    been delivered. *)
Definition single_flight (st : state) : Prop :=
  match inprogress st with
  | Idle => upstream st = 0
  | Running | Waiting => upstream st = 1
  end.



End Changes.

(** ** The change filter: [tryFilter] and [filterChange] *)
Module Filter.
Import JS.

(** What a call of the user's filter does: return a value, or throw an
    error whose [toString()] is [text]. *)
Inductive outcome : Type :=
| Returns (v : value)
| Throws (text : string).

(** [opts.filter]: a function of the document and the request, or any
    other value ([VUndefined] when absent). *)
Inductive filter_option : Type :=
| FilterFunction (f : value -> value -> outcome)
| FilterValue (v : value).

(** An error made by [createError(BAD_REQUEST, reason)]. *)
Record pouch_error : Type := PouchError {
  err_status : Z;
  err_name : string;
  err_reason : string
}.

Definition BAD_REQUEST (reason : string) : pouch_error :=
  PouchError 400 "bad_request" reason.

(** What [filterChange]'s closure computes with: a plain value or an error
    object. *)
Inductive result : Type :=
| Plain (v : value)
| Failure (e : pouch_error).

Definition tryFilter (filter : value -> value -> outcome) (doc req : value) : result :=
  match filter doc req with
  | Returns v => Plain (VBool (negb (truthy v)))
  | Throws text => Failure (BAD_REQUEST ("Filter function threw: " ++ text))
  end.

(** [typeof r === "object"] *)
Definition is_object (r : result) : bool :=
  match r with
  | Failure _ => true
  | Plain (VNull | VArr _ | VObj _) => true
  | Plain _ => false
  end.

Definition result_truthy (r : result) : bool :=
  match r with
  | Failure _ => true
  | Plain v => truthy v
  end.

Record options : Type := Options {
  filter : filter_option;
  fields : gmap string value
}.

Definition field_truthy (o : gmap string value) (k : string) : bool :=
  match o !! k with
  | Some v => truthy v
  | None => false
  end.

(** [att.stub = true] for every attachment of the document, where
    [_attachments] is an object or absent; an attachment that is not an
    object makes the assignment throw ([None]). *)
Definition is_obj (v : value) : bool :=
  match v with VObj _ => true | _ => false end.

Definition set_stub (v : value) : value :=
  match v with
  | VObj a => VObj (<["stub" := VBool true]> a)
  | _ => v
  end.

Definition stub_attachments (doc : value) : option value :=
  match doc with
  | VObj d =>
      match d !! "_attachments" with
      | Some (VObj atts) =>
          if map_fold (fun _ v ok => ok && is_obj v) true atts
          then Some (VObj (<["_attachments" := VObj (set_stub <$> atts)]> d))
          else None
      | _ => Some doc
      end
  | _ => Some doc
  end.

(** [req], with [req.query = opts.query_params]. *)
Definition request_of (fields : gmap string value) : value :=
  VObj {[ "query" := default VUndefined (fields !! "query_params") ]}.

(** [if (!change.doc) { change.doc = {}; }] *)
Definition with_doc (change : gmap string value) : gmap string value :=
  if field_truthy change "doc" then change else <["doc" := VObj ∅]> change.

(** [filterChange(opts)(change)]: the value returned and the change as the
    call leaves it; [None] when the stub loop throws. *)
Definition filterChange (o : options) (change : gmap string value) :
  option (result * gmap string value) :=
  let hasFilter :=
    match filter o with
    | FilterFunction _ => Plain (VBool true)
    | FilterValue v => if truthy v then Plain (VBool false) else Plain v
    end in
  let req := request_of (fields o) in
  let change1 := with_doc change in
  let doc := default VUndefined (change1 !! "doc") in
  let filterReturn :=
    match filter o with
    | FilterFunction f => tryFilter f doc req
    | FilterValue _ => hasFilter
    end in
  if is_object filterReturn then Some (filterReturn, change1)
  else if result_truthy filterReturn then Some (Plain (VBool false), change1)
  else if negb (field_truthy (fields o) "include_docs") then
    Some (Plain (VBool true), delete "doc" change1)
  else if negb (field_truthy (fields o) "attachments") then
    match stub_attachments doc with
    | Some doc' => Some (Plain (VBool true), <["doc" := doc']> change1)
    | None => None
    end
  else Some (Plain (VBool true), change1).



End Filter.

(** ** The entry guard of [adapterFun] *)
Module Adapter.
Import JS.

(** The part of the database handle that [adapterFun] reads. *)
Record handle : Type := Handle {
  _closed : value;
  _destroyed : value;
  taskqueue_isReady : value;
  debug_listeners : nat
}.

(** What a call does besides returning, in order. *)
Inductive effect : Type :=
| EmitDebug
| AddTask
| ApplyCallback.

(** What the function given to [toPromise] returns. *)
Inductive returned : Type :=
| RejectedPromise (message : string)
| TaskPromise
| CallbackResult.

(** [logApiCall] *)
Definition logApiCall (self : handle) : list effect :=
  match debug_listeners self with
  | O => []
  | S _ => [EmitDebug]
  end.

(** The function that [adapterFun] hands to [toPromise]. *)
Definition adapterFun_body (self : handle) : returned * list effect :=
  if truthy (_closed self) then (RejectedPromise "database is closed", [])
  else if truthy (_destroyed self) then (RejectedPromise "database is destroyed", [])
  else
    let log := logApiCall self in
    if negb (truthy (taskqueue_isReady self)) then (TaskPromise, log ++ [AddTask])
    else (CallbackResult, log ++ [ApplyCallback]).

(** How the promise made by [toPromise] ends. *)
Inductive settlement : Type :=
| Rejects (message : string)
| FollowsTask
| FollowsOperation.

(** [toPromise(func)]: a returned promise is adopted ([fulfill(resp)]), so
    the wrapper's promise ends as the returned one does. *)
Definition toPromise (func : handle -> returned * list effect) (self : handle) :
  settlement * list effect :=
  let '(resp, effects) := func self in
  (match resp with
   | RejectedPromise m => Rejects m
   | TaskPromise => FollowsTask
   | CallbackResult => FollowsOperation
   end, effects).

Definition adapterFun (self : handle) : settlement * list effect :=
  toPromise adapterFun_body self.

End Adapter.

(** ** A retry loop over [defaultBackOff] *)
Module Retry.
Import Binary64 Backoff.
Local Open Scope Z_scope.

(** A value that [Math.random()] can return: a double in [0, 1). *)
Definition unit_double (r : Z) : Prop := 0 <= r < scale /\ is_double r.

(** A minimum that the delays of a retry loop can take: unset, or a delay
    below [2^30] ms. *)
Definition usable_min (min : jsnum) : Prop :=
  match min with
  | Undefined => True
  | Num M => 0 <= M < 2 ^ 30
  end.

(** The delays that [defaultBackOff] gives when each delay is handed back
    as the next minimum, one random draw per attempt. *)
Fixpoint backoff_chain (min : jsnum) (ratios : list Z) : list Z :=
  match ratios with
  | [] => []
  | r :: rest =>
      let delay := defaultBackOff min r in
      delay :: backoff_chain (Num delay) rest
  end.

End Retry.

(** ** Answers of the store, for the bulk-get shim *)
Module BulkGetAnswers.
Import JS BulkGet.

(** The store failed the fetch. *)
Definition is_failure (ev : event) : bool :=
  match ev with
  | Complete _ (GetErr _) => true
  | Complete _ (GetOk _) => false
  end.

(** The entry that a failed fetch leaves in [results]. *)
Definition is_error_entry (e : entry) : Prop :=
  exists err, e_docs e = [VObj {[ "error" := err ]}].

(** A store that fails both fetches of [two_revs_and_one]. *)
Definition both_fail : list event :=
  [Complete 0 (GetErr (VStr "not_found")); Complete 1 (GetErr (VStr "timeout"))].

End BulkGetAnswers.

(** ** Counting the events of a listener *)
Module ChangesCounts.
Import JS Changes.

Definition is_emit (ev : event) : bool :=
  match ev with Emit => true | _ => false end.

(** The end of an upstream call, by [complete] or by [error]. *)
Definition is_end (ev : event) : bool :=
  match ev with Complete | Error => true | _ => false end.

Definition count (p : event -> bool) (evs : list event) : nat :=
  length (List.filter p evs).

(** What the run state owes to past triggers: a coalesced trigger that
    waits for the end of the run. *)
Definition waiting_debt (st : state) : nat :=
  match inprogress st with Waiting => 1 | _ => 0 end.

End ChangesCounts.

(** ** The registry of the [Changes] object *)
Module Registry.
Import JS.

(** An [eventFunction] made by [addListener]: the id it was made for, and
    a serial number that tells the functions made for one id apart. *)
Definition handler : Type := (string * nat)%type.

(** The [Changes] object: [_listeners], the functions that the event
    emitter holds with their channel, oldest first, and the serial number
    of the next function. *)
Record registry : Type := Registry {
  _listeners : gmap string handler;
  attached : list (string * handler);
  fresh : nat
}.

(** The object that the constructor leaves. *)
Definition empty : registry := Registry ∅ [] 0.

Definition addListener (dbName id : string) (r : registry) : registry :=
  match _listeners r !! id with
  | Some _ => r
  | None =>
      let eventFunction : handler := (id, fresh r) in
      Registry (<[id := eventFunction]> (_listeners r))
               (attached r ++ [(dbName, eventFunction)])
               (S (fresh r))
  end.

(** [EventEmitter.prototype.removeListener]: at most one instance of the
    function is removed from the channel, the one added last. *)
Fixpoint remove_first (x : string * handler) (l : list (string * handler)) :
  list (string * handler) :=
  match l with
  | [] => []
  | y :: l' => if decide (x = y) then l' else y :: remove_first x l'
  end.

Definition emitter_remove (x : string * handler) (l : list (string * handler)) :
  list (string * handler) :=
  reverse (remove_first x (reverse l)).

Definition removeListener (dbName id : string) (r : registry) : registry :=
  match _listeners r !! id with
  | None => r
  | Some eventFunction =>
      Registry (delete id (_listeners r))
               (emitter_remove (dbName, eventFunction) (attached r))
               (fresh r)
  end.

(** The functions that [emit(dbName)] calls, in order. *)
Definition emitted (dbName : string) (r : registry) : list handler :=
  map snd (List.filter (fun p => String.eqb (fst p) dbName) (attached r)).

(** The called functions that get past their first test,
    [self._listeners[id]]: the test reads the entry of the id, whichever
    function it holds. *)
Definition triggered (dbName : string) (r : registry) : list handler :=
  List.filter (fun h => bool_decide (is_Some (_listeners r !! fst h)))
              (emitted dbName r).

(** The calls of a client. *)
Inductive op : Type :=
| Add (dbName id : string)
| Remove (dbName id : string).

Definition apply_op (r : registry) (o : op) : registry :=
  match o with
  | Add dbName id => addListener dbName id r
  | Remove dbName id => removeListener dbName id r
  end.

(** A client that removes a listener from the channel it was added to. *)
Definition matched (r : registry) (o : op) : Prop :=
  match o with
  | Add _ _ => True
  | Remove dbName id =>
      forall h, _listeners r !! id = Some h -> (dbName, h) ∈ attached r
  end.

Fixpoint well_matched (r : registry) (ops : list op) : Prop :=
  match ops with
  | [] => True
  | o :: rest => matched r o /\ well_matched (apply_op r o) rest
  end.

(** The registry invariant, for the proofs: serial numbers in use are
    below [fresh]; every listed function is made for its id and attached;
    no function is attached twice. *)
Record wf (r : registry) : Prop := Wf {
  wf_fresh : forall c h, (c, h) ∈ attached r -> snd h < fresh r;
  wf_attached : forall id h, _listeners r !! id = Some h ->
                             fst h = id /\ exists c, (c, h) ∈ attached r;
  wf_once : NoDup (map snd (attached r))
}.

(** Every attached function is the listed one of its id. *)
Definition no_leak (r : registry) : Prop :=
  forall c h, (c, h) ∈ attached r -> _listeners r !! fst h = Some h.

(** Two listeners on one channel, one on another. *)
Definition sample_ops : list op :=
  [Add "db" "sub1"; Add "db" "sub2"; Add "other" "sub3"; Remove "db" "sub1"].


End Registry.

(** ** Cases of the change filter *)
Module FilterCases.
Import JS Filter.

(** The document that [filterChange] hands to the filter. *)
Definition doc_of (change : gmap string value) : value :=
  default VUndefined (with_doc change !! "doc").

(** The change gets past the filter: a filter function returns a truthy
    value for it, or [opts.filter] is not a function (and not [null]). *)
Definition accepts (o : options) (change : gmap string value) : Prop :=
  match filter o with
  | FilterFunction f =>
      exists v, f (doc_of change) (request_of (fields o)) = Returns v /\
                truthy v = true
  | FilterValue v => v <> VNull
  end.


(** A filter on the document type, and a change with two attachments. *)
Definition only_posts : value -> value -> outcome :=
  fun doc _ =>
    match doc with
    | VObj d =>
        match d !! "type" with
        | Some (VStr t) => Returns (VBool (String.eqb t "post"))
        | _ => Returns (VBool false)
        end
    | _ => Returns (VBool false)
    end.

Definition sample_attachments : gmap string value :=
  {[ "a.txt" := VObj {[ "content_type" := VStr "text/plain"; "data" := VStr "aGk=" ]};
     "b.png" := VObj {[ "content_type" := VStr "image/png"; "length" := VNum 3 ]} ]}.

Definition sample_doc : gmap string value :=
  {[ "_id" := VStr "p1"; "type" := VStr "post";
     "_attachments" := VObj sample_attachments ]}.

Definition sample_post : gmap string value :=
  {[ "seq" := VNum 7; "id" := VStr "p1"; "doc" := VObj sample_doc ]}.

End FilterCases.

(** ** [clone] *)
Module Clone.
Import JS.







End Clone.

(** ** [once], [flatten], [invalidIdError] and the design-document names *)
Module Utils.
Import JS.
Import Stdlib.Strings.Ascii.

(** *** [once] *)

(** What one call of the function made by [once(fun)] does. *)
Inductive call_outcome (A : Type) : Type :=
| Applied (args : A)
| Thrown (message : string).
Arguments Applied {A} args.
Arguments Thrown {A} message.

(** One call, from the flag [called] to the flag after the call. *)
Definition once_call {A : Type} (called : bool) (args : A) : call_outcome A * bool :=
  if called then (Thrown "once called more than once", called)
  else (Applied args, true).

(** The calls of one wrapper, in order. *)
Fixpoint once_calls {A : Type} (called : bool) (calls : list A) : list (call_outcome A) :=
  match calls with
  | [] => []
  | args :: rest =>
      let '(out, called') := once_call called args in
      out :: once_calls called' rest
  end.

Definition once {A : Type} (calls : list A) : list (call_outcome A) :=
  once_calls false calls.

(** *** [flatten] *)

(** [res.concat(x)]: the elements of an array, any other value as it is. *)
Definition concat_arg (x : value) : list value :=
  match x with
  | VArr l => l
  | _ => [x]
  end.

Definition flatten (arrs : list value) : list value :=
  foldl (fun res x => res ++ concat_arg x) [] arrs.

(** *** [invalidIdError] *)

Inductive id_error : Type :=
| MISSING_ID
| INVALID_ID
| RESERVED_ID.

(** The error thrown for [id], [None] when the call returns. *)
Definition invalidIdError (id : value) : option id_error :=
  if negb (truthy id) then Some MISSING_ID
  else
    match id with
    | VStr s =>
        if String.prefix "_" s
           && negb (String.prefix "_design" s || String.prefix "_local" s)
        then Some RESERVED_ID
        else None
    | _ => Some INVALID_ID
    end.

(** *** [parseDesignDocFunctionName], [normalizeDesignDocFunctionName] *)

Definition is_slash (c : Ascii.ascii) : bool := Ascii.eqb c "/"%char.

(** [s.split("/")] *)
Fixpoint split_slash (s : string) : list string :=
  match s with
  | EmptyString => [EmptyString]
  | String c rest =>
      if is_slash c then EmptyString :: split_slash rest
      else
        match split_slash rest with
        | part :: parts => String c part :: parts
        | [] => [String c EmptyString]
        end
  end.

(** [parts.join("/")] *)
Fixpoint join_slash (parts : list string) : string :=
  match parts with
  | [] => EmptyString
  | [part] => part
  | part :: rest => String.append part (String "/" (join_slash rest))
  end.

(** [null] is [None]. *)
Definition parseDesignDocFunctionName (s : string) : option (list string) :=
  if String.eqb s "" then None
  else
    let parts := split_slash s in
    if length parts =? 2 then Some parts
    else if length parts =? 1 then Some [s; s]
    else None.

Definition normalizeDesignDocFunctionName (s : string) : option string :=
  match parseDesignDocFunctionName s with
  | Some normalized => Some (join_slash normalized)
  | None => None
  end.

Fixpoint slash_free (s : string) : bool :=
  match s with
  | EmptyString => true
  | String c rest => negb (is_slash c) && slash_free rest
  end.

End Utils.

(** ** [upsert] and [tryAndPut] *)
Module Upsert.
Import JS.
Local Open Scope Z_scope.

(** How the store answers [db.get] and [db.put]; an error is given by its
    [status]. *)
Inductive get_answer : Type :=
| GetDoc (doc : gmap string value)
| GetFails (status : Z).

Inductive put_answer : Type :=
| PutOk (rev : value)
| PutFails (status : Z).

(** The answers of one round: to the [get], and to the [put] if one is
    made. *)
Record round : Type := Round {
  got : get_answer;
  put : put_answer
}.

(** What the store is asked, in order. *)
Inductive request : Type :=
| Get (docId : string)
| Put (doc : gmap string value).

(** How the promise of [upsert] ends. *)
Inductive settled : Type :=
| Resolved (updated : bool) (rev : value)
| Rejected (status : Z).

(** [doc._rev], [undefined] when there is none. *)
Definition rev_of (doc : gmap string value) : value :=
  default VUndefined (doc !! "_rev").

(** [newDoc._id = docId; newDoc._rev = docRev;] *)
Definition stamp (docId : string) (docRev : value) (newDoc : gmap string value) :
  gmap string value :=
  <["_rev" := docRev]> (<["_id" := VStr docId]> newDoc).

(** The document that the [then] of [upsert] works on: the one read, or
    [{}] after a 404. *)
Definition read_doc (a : get_answer) : settled + gmap string value :=
  match a with
  | GetDoc doc => inr doc
  | GetFails status => if status =? 404 then inr ∅ else inl (Rejected status)
  end.

(** [upsert(db, docId, diffFun)] against a store that answers by [rounds];
    [diffFun] gives the new document, or [None] for a falsy value.  The
    requests made, and how the promise ends ([None]: the store has not
    answered yet). *)
Fixpoint upsert (rounds : list round) (docId : string)
  (diffFun : gmap string value -> option (gmap string value)) :
  list request * option settled :=
  match rounds with
  | [] => ([Get docId], None)
  | r :: rest =>
      match read_doc (got r) with
      | inl rejected => ([Get docId], Some rejected)
      | inr doc =>
          let docRev := rev_of doc in
          match diffFun doc with
          | None => ([Get docId], Some (Resolved false docRev))
          | Some newDoc =>
              let doc' := stamp docId docRev newDoc in
              (* tryAndPut *)
              match put r with
              | PutOk rev => ([Get docId; Put doc'], Some (Resolved true rev))
              | PutFails status =>
                  if status =? 409 then
                    let '(requests, result) := upsert rest docId diffFun in
                    (Get docId :: Put doc' :: requests, result)
                  else ([Get docId; Put doc'], Some (Rejected status))
              end
          end
      end
  end.

(** A round lost to another writer: a document is read, [diffFun] gives a
    new one, and the [put] is answered by a conflict. *)
Definition conflict_round (diffFun : gmap string value -> option (gmap string value))
  (r : round) : Prop :=
  (exists doc, read_doc (got r) = inr doc /\ diffFun doc <> None) /\
  put r = PutFails 409.

(** The document that a request puts, after the document that the [get]
    before it read. *)
Fixpoint puts_follow (docId : string) (reads : list (gmap string value))
  (requests : list request) {struct requests} : Prop :=
  match requests with
  | [] => True
  | Get id :: Put doc :: rest =>
      id = docId /\
      match reads with
      | read :: reads' =>
          doc !! "_id" = Some (VStr docId) /\
          doc !! "_rev" = Some (rev_of read) /\
          puts_follow docId reads' rest
      | [] => False
      end
  | [Get id] => id = docId
  | _ => False
  end.

(** The documents that the rounds give to [diffFun]. *)
Definition reads_of (rounds : list round) : list (gmap string value) :=
  omap (fun r => match read_doc (got r) with inr doc => Some doc | inl _ => None end)
       rounds.

(** A counter: [diffFun] adds one to [count]. *)
Definition bump (doc : gmap string value) : option (gmap string value) :=
  match doc !! "count" with
  | Some (VNum n) => Some (<["count" := VNum (n + 1)]> doc)
  | _ => Some (<["count" := VNum 1]> doc)
  end.

Definition counter (rev : string) (n : Z) : gmap string value :=
  {[ "_id" := VStr "counter"; "_rev" := VStr rev; "count" := VNum n ]}.

Definition two_conflicts : list round :=
  [ Round (GetDoc (counter "1-a" 4)) (PutFails 409);
    Round (GetDoc (counter "2-b" 5)) (PutFails 409);
    Round (GetDoc (counter "3-c" 6)) (PutOk (VStr "4-d")) ].

End Upsert.

(** ** [toPromise]: the callback and the promise *)
Module Promisify.
Import JS Utils.

(** What the promise made by [toPromise] sees of the wrapped function:
    calls of the callback it was given, during the call or later, its
    return, or an exception that leaves it. *)
Inductive signal : Type :=
| Callback (err mesg : value)
| Returns (resp : value) (thenable : bool)
| Throws (e : value).

(** The promise: settled with a value that is not a thenable, or following
    the thenable that the function returned. *)
Inductive fate : Type :=
| Pending
| Fulfilled (mesg : value)
| Rejected (err : value)
| Follows (resp : value).

Record state : Type := State {
  called : bool;        (* the flag of [once] *)
  promise : fate;
  complaints : nat      (* the times that [once] has thrown *)
}.

Definition init : state := State false Pending 0.

(** [fulfill] and [reject]: only the first call counts. *)
Definition settle (p : fate) (f : fate) : fate :=
  match p with
  | Pending => f
  | _ => p
  end.

Definition step (st : state) (sig : signal) : state :=
  match sig with
  | Callback err mesg =>
      match once_call (called st) (err, mesg) with
      | (Applied (err', mesg'), called') =>
          State called'
                (settle (promise st)
                        (if truthy err' then Rejected err' else Fulfilled mesg'))
                (complaints st)
      | (Thrown _, called') => State called' (promise st) (S (complaints st))
      end
  | Returns resp thenable =>
      if truthy resp && thenable
      then State (called st) (settle (promise st) (Follows resp)) (complaints st)
      else st
  | Throws e => State (called st) (settle (promise st) (Rejected e)) (complaints st)
  end.

Definition toPromise (signals : list signal) : state := foldl step init signals.

(** The call of the caller's callback, if one was given, for a promise
    settled here: [usedCB(null, result)] or [usedCB(err)]. *)
Definition usedCB_call (f : fate) : option (value * value) :=
  match f with
  | Fulfilled mesg => Some (VNull, mesg)
  | Rejected err => Some (err, VUndefined)
  | Pending | Follows _ => None
  end.

Definition is_callback (sig : signal) : bool :=
  match sig with Callback _ _ => true | _ => false end.

(** A signal that leaves a pending promise pending: the return of a value
    that is falsy or not a thenable. *)
Definition idle (sig : signal) : bool :=
  match sig with
  | Returns resp thenable => negb (truthy resp && thenable)
  | _ => false
  end.

End Promisify.

(** * Properties *)

(** ** Rounding *)
Section Rounding.
Import Binary64.
Local Open Scope Z_scope.

(** The rounding at work: [1 + 2^-53] is half way between two doubles and
    goes to the even one, 1; a little more goes up to [1 + 2^-52];
    [1 + 3 * 2^-53] goes to the even [1 + 2^-51]; rounding is symmetric;
    and [0.1 + 0.2] is [0.30000000000000004], not [0.3]. *)
Example round_tie_to_even :
  round (scale + 2 ^ 1021) = scale /\
  round (scale + 2 ^ 1021 + 1) = scale + 2 ^ 1022 /\
  round (scale + 3 * 2 ^ 1021) = scale + 2 ^ 1023 /\
  round (- (scale + 2 ^ 1021 + 1)) = - (scale + 2 ^ 1022).
Proof. repeat split; vm_compute; reflexivity. Qed.

Example add_tenth_and_fifth :
  add (3602879701896397 * 2 ^ (1074 - 55)) (3602879701896397 * 2 ^ (1074 - 54))
    = 5404319552844596 * 2 ^ (1074 - 54) /\
  is_double (5404319552844595 * 2 ^ (1074 - 54)).
Proof. split; vm_compute; reflexivity. Qed.

Lemma pow2_pos (s : Z) : 0 <= s -> 0 < 2 ^ s.
Proof. intros. apply Z.pow_pos_nonneg; lia. Qed.

Lemma pow2_split (s : Z) : 0 < s -> 2 ^ s = 2 * 2 ^ (s - 1).
Proof.
  intros Hs. replace s with (Z.succ (s - 1)) at 1 by lia.
  apply Z.pow_succ_r. lia.
Qed.

Lemma rne_bounds (a s : Z) :
  0 < s -> a / 2 ^ s <= rne a s <= a / 2 ^ s + 1.
Proof.
  intros Hs. unfold rne.
  repeat match goal with |- context [if ?b then _ else _] => destruct b end; lia.
Qed.

Lemma rne_exact (a s : Z) :
  0 < s -> a mod 2 ^ s = 0 -> rne a s = a / 2 ^ s.
Proof.
  intros Hs Hr. unfold rne. rewrite Hr.
  pose proof (pow2_pos (s - 1) ltac:(lia)) as Hh.
  destruct (0 <? 2 ^ (s - 1)) eqn:E; [reflexivity | lia].
Qed.

(** The rounded value is at most half a unit in the last place above. *)
Lemma rne_above (a s : Z) :
  0 < s -> rne a s * 2 ^ s <= a + 2 ^ (s - 1).
Proof.
  intros Hs. unfold rne.
  pose proof (pow2_pos s ltac:(lia)) as Hp.
  pose proof (pow2_split s Hs) as Hsplit.
  pose proof (Z.div_mod a (2 ^ s) ltac:(lia)) as Hdm.
  pose proof (Z.mod_pos_bound a (2 ^ s) Hp) as Hm.
  set (q := a / 2 ^ s) in *. set (r := a mod 2 ^ s) in *.
  set (h := 2 ^ (s - 1)) in *.
  destruct (r <? h) eqn:E1; [lia|].
  destruct (h <? r) eqn:E2; [lia|].
  destruct (Z.even q); lia.
Qed.

(** Rounding never steps over a value that lies on the grid it rounds to. *)
Lemma round_pos_le_grid (a f : Z) :
  0 <= a -> a <= f ->
  (0 < Z.log2 a - 52 -> (2 ^ (Z.log2 a - 52) | f)) ->
  round_pos a <= f.
Proof.
  intros Ha Haf Hdiv. unfold round_pos.
  destruct (Z.log2 a - 52 <=? 0) eqn:Es; [lia|].
  apply Z.leb_gt in Es. destruct (Hdiv Es) as [c Hc].
  set (s := Z.log2 a - 52) in *.
  pose proof (pow2_pos s ltac:(lia)) as Hp.
  pose proof (Z.div_mod a (2 ^ s) ltac:(lia)) as Hdm.
  pose proof (Z.mod_pos_bound a (2 ^ s) Hp) as Hm.
  destruct (Z.eq_dec (a mod 2 ^ s) 0) as [Hr|Hr].
  - rewrite rne_exact by assumption. nia.
  - pose proof (rne_bounds a s Es) as Hb.
    assert (a / 2 ^ s + 1 <= c) by nia. nia.
Qed.

Lemma round_pos_ge_grid (a f : Z) :
  0 <= f -> f <= a ->
  (0 < Z.log2 a - 52 -> (2 ^ (Z.log2 a - 52) | f)) ->
  f <= round_pos a.
Proof.
  intros Hf Hfa Hdiv. unfold round_pos.
  destruct (Z.log2 a - 52 <=? 0) eqn:Es; [lia|].
  apply Z.leb_gt in Es. destruct (Hdiv Es) as [c Hc].
  set (s := Z.log2 a - 52) in *.
  pose proof (pow2_pos s ltac:(lia)) as Hp.
  pose proof (Z.div_mod a (2 ^ s) ltac:(lia)) as Hdm.
  pose proof (Z.mod_pos_bound a (2 ^ s) Hp) as Hm.
  pose proof (rne_bounds a s Es) as Hb.
  assert (c <= a / 2 ^ s) by nia. nia.
Qed.

(** An integer value is on every grid that rounding a magnitude below
    [2^53] can use. *)
Lemma grid_of_int (a n : Z) :
  0 <= a -> a < 2 ^ 53 * scale ->
  0 < Z.log2 a - 52 -> (2 ^ (Z.log2 a - 52) | of_int n).
Proof.
  intros Ha Hlt Hs. unfold of_int, scale in *.
  assert (Z.log2 a < 53 + 1074) as Hl.
  { assert (0 < a) by (pose proof (Z.log2_nonpos a); lia).
    apply Z.log2_lt_pow2; [lia|]. rewrite Z.pow_add_r by lia. exact Hlt. }
  exists (n * 2 ^ (1074 - (Z.log2 a - 52))).
  rewrite <- Z.mul_assoc, <- Z.pow_add_r by lia. f_equal. f_equal. lia.
Qed.

Lemma round_nonneg (a : Z) : 0 <= a -> round a = round_pos a.
Proof. intros Ha. unfold round. destruct (a <? 0) eqn:E; [lia | reflexivity]. Qed.

(** Rounding a value between two integers stays between them. *)
Lemma round_between_ints (a lo hi : Z) :
  0 <= lo -> hi < 2 ^ 53 ->
  of_int lo <= a <= of_int hi ->
  of_int lo <= round a <= of_int hi.
Proof.
  intros Hlo Hhi [Hl Hh].
  assert (0 < scale) as Hsc by (apply pow2_pos; lia).
  assert (0 <= a) as Ha by (unfold of_int in *; nia).
  assert (a < 2 ^ 53 * scale) as Hlt by (unfold of_int in *; nia).
  rewrite round_nonneg by assumption. split.
  - apply round_pos_ge_grid; [unfold of_int; nia | assumption |].
    apply grid_of_int; assumption.
  - apply round_pos_le_grid; [assumption | assumption |].
    apply grid_of_int; assumption.
Qed.

(** The significand of a magnitude that needs rounding has 53 bits. *)
Lemma significand_range (a : Z) :
  0 < Z.log2 a - 52 ->
  2 ^ 52 <= a / 2 ^ (Z.log2 a - 52) < 2 ^ 53.
Proof.
  intros Hs.
  assert (0 < a) as Ha by (pose proof (Z.log2_nonpos a); lia).
  pose proof (Z.log2_spec a Ha) as [Hlo Hhi].
  set (s := Z.log2 a - 52) in *.
  replace (Z.log2 a) with (52 + s) in Hlo by lia.
  replace (Z.succ (Z.log2 a)) with (53 + s) in Hhi by lia.
  rewrite Z.pow_add_r in Hlo, Hhi by lia.
  pose proof (pow2_pos s ltac:(lia)) as Hp.
  split.
  - apply Z.div_le_lower_bound; lia.
  - apply Z.div_lt_upper_bound; lia.
Qed.

Lemma round_pos_idem (a : Z) : round_pos (round_pos a) = round_pos a.
Proof.
  destruct (Z.log2 a - 52 <=? 0) eqn:Es.
  { unfold round_pos at 2. rewrite Es. reflexivity. }
  assert (round_pos a = rne a (Z.log2 a - 52) * 2 ^ (Z.log2 a - 52)) as ->.
  { unfold round_pos. rewrite Es. reflexivity. }
  apply Z.leb_gt in Es.
  pose proof (significand_range a Es) as Hq.
  pose proof (rne_bounds a _ Es) as Hm.
  set (s := Z.log2 a - 52) in *. set (m := rne a s) in *.
  pose proof (pow2_pos s ltac:(lia)) as Hp.
  assert (2 ^ 53 = 2 * 2 ^ 52) as H53 by reflexivity.
  destruct (Z.eq_dec m (2 ^ 53)) as [Hmax|Hlt].
  - assert (m * 2 ^ s = 2 ^ 52 * 2 ^ (s + 1)) as Hb.
    { rewrite Hmax, H53, Z.pow_add_r by lia. change (2 ^ 1) with 2. lia. }
    assert (Z.log2 (m * 2 ^ s) = 52 + (s + 1)) as Hl.
    { rewrite Hb, <- Z.pow_add_r by lia. apply Z.log2_pow2. lia. }
    unfold round_pos. rewrite Hl.
    replace (52 + (s + 1) - 52) with (s + 1) by lia.
    destruct (s + 1 <=? 0) eqn:E; [lia|].
    rewrite rne_exact; [| lia | rewrite Hb; apply Z.mod_mul; lia ].
    rewrite Hb, Z.div_mul; [reflexivity | lia].
  - assert (Z.log2 (m * 2 ^ s) = 52 + s) as Hl.
    { apply Z.log2_unique; [lia|].
      replace (Z.succ (52 + s)) with (53 + s) by lia.
      rewrite !Z.pow_add_r by lia. nia. }
    unfold round_pos. rewrite Hl.
    replace (52 + s - 52) with s by lia.
    destruct (s <=? 0) eqn:E; [lia|].
    rewrite rne_exact; [| lia | apply Z.mod_mul; lia ].
    rewrite Z.div_mul; [reflexivity | lia].
Qed.

Lemma round_idem (a : Z) : 0 <= a -> round (round a) = round a.
Proof.
  intros Ha. rewrite (round_nonneg a Ha).
  assert (0 <= round_pos a) as Hr.
  { apply round_pos_ge_grid; [lia | assumption |]. intros _. apply Z.divide_0_r. }
  rewrite round_nonneg by assumption. apply round_pos_idem.
Qed.

(** A double below 1 is at most [1 - 2^-53]. *)
Lemma double_below_one (k : Z) :
  0 <= k < scale -> is_double k -> k <= pred_one.
Proof.
  intros [Hk0 Hk1] Hd. unfold is_double in Hd.
  rewrite round_nonneg in Hd by assumption.
  unfold pred_one, scale in *.
  assert (2 ^ 1074 = 2 ^ 53 * 2 ^ 1021) as H1 by (rewrite <- Z.pow_add_r by lia; reflexivity).
  assert (2 ^ 1073 = 2 ^ 52 * 2 ^ 1021) as H2 by (rewrite <- Z.pow_add_r by lia; reflexivity).
  assert (2 ^ 53 = 2 * 2 ^ 52) as H53 by reflexivity.
  pose proof (pow2_pos 1021 ltac:(lia)) as Hp.
  pose proof (pow2_pos 52 ltac:(lia)) as Hp52.
  destruct (Z.lt_ge_cases k (2 ^ 1073)) as [Hsmall|Hbig].
  - rewrite H1. rewrite H2 in Hsmall. nia.
  - assert (Z.log2 k = 1073) as Hl.
    { apply Z.log2_unique; [lia|]. change (Z.succ 1073) with 1074. lia. }
    unfold round_pos in Hd. rewrite Hl in Hd.
    change (1073 - 52) with 1021 in Hd.
    change (1021 <=? 0) with false in Hd. cbv iota in Hd.
    assert (rne k 1021 < 2 ^ 53) by nia.
    rewrite H1. nia.
Qed.

(** The product of a positive integer and a double below 1 rounds to a
    double strictly below that integer. *)
Lemma mul_int_lt (n k : Z) :
  0 < n < 2 ^ 53 -> 0 <= k < scale -> is_double k ->
  0 <= mul_int n k < of_int n.
Proof.
  intros [Hn0 Hn1] Hk Hd.
  pose proof (double_below_one k Hk Hd) as Hpred.
  unfold mul_int, of_int, pred_one in *.
  assert (0 < scale) as Hsc by (apply pow2_pos; lia).
  assert (scale = 2 ^ 53 * 2 ^ 1021) as H1.
  { unfold scale. rewrite <- Z.pow_add_r by lia. reflexivity. }
  pose proof (pow2_pos 1021 ltac:(lia)) as Hp.
  assert (0 <= n * k) as Ha by nia.
  rewrite round_nonneg by assumption. split.
  - apply round_pos_ge_grid; [lia | assumption |]. intros _. apply Z.divide_0_r.
  - unfold round_pos.
    destruct (Z.log2 (n * k) - 52 <=? 0) eqn:Es; [nia|].
    apply Z.leb_gt in Es.
    assert (0 < n * k) as Hpos by (pose proof (Z.log2_nonpos (n * k)); lia).
    pose proof (Z.log2_spec (n * k) Hpos) as [Hlo _].
    pose proof (rne_above (n * k) _ Es) as Hab.
    set (s := Z.log2 (n * k) - 52) in *.
    replace (Z.log2 (n * k)) with (53 + (s - 1)) in Hlo by lia.
    rewrite Z.pow_add_r in Hlo by lia.
    pose proof (pow2_pos (s - 1) ltac:(lia)) as Hh.
    pose proof (pow2_pos 53 ltac:(lia)) as Hp53.
    set (h := 2 ^ (s - 1)) in *. set (u := 2 ^ 1021) in *. set (p := 2 ^ 53) in *.
    assert (h < n * u) by nia.
    nia.
Qed.

End Rounding.

(** ** Backoff *)
Section BackoffFacts.
Import Binary64 Backoff.
Local Open Scope Z_scope.

Lemma toInt32_small (z : Z) : - 2 ^ 31 <= z < 2 ^ 31 -> toInt32 z = z.
Proof.
  intros Hz. unfold toInt32.
  change (2 ^ 31) with 2147483648 in *. change (2 ^ 32) with 4294967296.
  rewrite Z.mod_small; lia.
Qed.

Lemma shl1_small (z : Z) : 0 <= z < 2 ^ 30 -> shl1 z = 2 * z.
Proof.
  intros Hz. unfold shl1. change (2 ^ 30) with 1073741824 in Hz.
  rewrite (toInt32_small z) by (change (2 ^ 31) with 2147483648; lia).
  rewrite Z.shiftl_mul_pow2 by lia. change (2 ^ 1) with 2.
  rewrite toInt32_small by (change (2 ^ 31) with 2147483648; lia). lia.
Qed.

Lemma scale_pos : 0 < scale.
Proof. apply pow2_pos. lia. Qed.

Lemma trunc_between (x lo hi : Z) :
  0 <= lo -> of_int lo <= x <= of_int hi -> lo <= trunc x <= hi.
Proof.
  intros Hlo [Hl Hh]. pose proof scale_pos as Hsc. unfold of_int, trunc in *.
  assert (0 <= x) by nia.
  rewrite Z.quot_div_nonneg by lia. split.
  - apply Z.div_le_lower_bound; lia.
  - apply Z.div_le_upper_bound; lia.
Qed.

Lemma trunc_below (x hi : Z) :
  0 <= x < of_int hi -> 0 <= trunc x < hi.
Proof.
  intros [Hl Hh]. pose proof scale_pos as Hsc. unfold of_int, trunc in *.
  rewrite Z.quot_div_nonneg by lia. split.
  - apply Z.div_pos; lia.
  - apply Z.div_lt_upper_bound; lia.
Qed.

Lemma randomNumber_eq (min max : jsnum) (ratio : Z) :
  randomNumber min max ratio =
  draw (fst (window min max)) (snd (window min max)) ratio.
Proof.
  unfold randomNumber, window, draw.
  destruct (parseInt10 max) as [m|];
    repeat match goal with |- context [if ?b then _ else _] => destruct b end;
    reflexivity.
Qed.

(** The draw stays inside the closed window, whatever double in [0, 1) the
    random source returns. *)
Lemma draw_in_window (lo hi ratio : Z) :
  0 <= lo <= hi -> hi < 2 ^ 31 -> 0 <= ratio < scale ->
  lo <= draw lo hi ratio <= hi.
Proof.
  intros [Hlo Hhi] Hmax Hr. unfold draw, double_tilde, add, mul_int.
  pose proof scale_pos as Hsc.
  assert (2 ^ 31 < 2 ^ 53) as Hpow by reflexivity.
  assert (of_int 0 <= round ((hi - lo) * ratio) <= of_int (hi - lo)) as Hp.
  { apply round_between_ints; [lia | lia |]. unfold of_int. nia. }
  assert (of_int lo <= round (round ((hi - lo) * ratio) + of_int lo) <= of_int hi) as Hs.
  { apply round_between_ints; [lia | lia |]. unfold of_int in *. lia. }
  pose proof (trunc_between _ lo hi Hlo Hs) as Ht.
  rewrite toInt32_small; [assumption|].
  change (2 ^ 31) with 2147483648 in *. lia.
Qed.

(** From 0 the draw never reaches the upper end of the window. *)
Lemma draw_from_zero (hi ratio : Z) :
  0 < hi < 2 ^ 31 -> 0 <= ratio < scale -> is_double ratio ->
  0 <= draw 0 hi ratio < hi.
Proof.
  intros [Hlo Hhi] Hr Hd. unfold draw, double_tilde, add.
  assert (2 ^ 31 < 2 ^ 53) as Hpow by reflexivity.
  replace (hi - 0) with hi by lia.
  pose proof (mul_int_lt hi ratio ltac:(lia) Hr Hd) as Hp.
  unfold mul_int in *.
  replace (round (hi * ratio) + of_int 0) with (round (hi * ratio))
    by (unfold of_int; lia).
  rewrite round_idem by nia.
  pose proof (trunc_below _ hi Hp) as Ht.
  rewrite toInt32_small; [assumption|].
  change (2 ^ 31) with 2147483648 in *. lia.
Qed.

Lemma or_default_nonzero (z d : Z) : z <> 0 -> or_default (Some z) d = z.
Proof.
  intros Hz. unfold or_default. destruct (z =? 0) eqn:E; [lia | reflexivity].
Qed.

(** With a minimum and no usable maximum the window is the doubled minimum,
    or the capped window once the double passes [maxTimeout]. *)
Lemma window_min_only (M : Z) (max : jsnum) :
  1 <= M < 2 ^ 30 -> max = Undefined \/ max = Num 0 ->
  window (Num M) max =
  if 300000 <? M then (300000, 600000) else (M, 2 * M).
Proof.
  intros HM Hmax. unfold window. cbn [parseInt10].
  rewrite (or_default_nonzero M 0) by lia.
  rewrite (or_default_nonzero M 1) by lia.
  rewrite shl1_small by lia.
  assert ((match parseInt10 max with
           | Some m => if m <=? M then 2 * M else m + 1
           | None => 2 * M
           end) = 2 * M) as ->.
  { destruct Hmax as [-> | ->]; cbn [parseInt10]; [reflexivity|].
    destruct (0 <=? M) eqn:E; [reflexivity | lia]. }
  unfold maxTimeout. change (sar1 600000) with 300000.
  destruct (600000 <? 2 * M) eqn:E1, (300000 <? M) eqn:E2; try reflexivity; lia.
Qed.

Lemma window_unset_unset (min : jsnum) :
  min = Undefined \/ min = Num 0 -> window min Undefined = (0, 2).
Proof. intros [-> | ->]; reflexivity. Qed.

Lemma window_unset_default (min : jsnum) :
  min = Undefined \/ min = Num 0 -> window min (Num 2000) = (0, 2001).
Proof. intros [-> | ->]; reflexivity. Qed.

Lemma defaultBackOff_truthy (M ratio : Z) :
  M <> 0 -> defaultBackOff (Num M) ratio = randomNumber (Num M) (Num 0) ratio.
Proof.
  intros HM. unfold defaultBackOff, falsy.
  destruct (M =? 0) eqn:E; [lia | reflexivity].
Qed.

(** Draws with a minimum only. *)
Lemma randomNumber_min_only (M ratio : Z) (max : jsnum) :
  1 <= M < 2 ^ 30 -> max = Undefined \/ max = Num 0 ->
  0 <= ratio < scale ->
  (M <= 300000 -> M <= randomNumber (Num M) max ratio <= 2 * M) /\
  (300000 < M -> 300000 <= randomNumber (Num M) max ratio <= 600000).
Proof.
  intros HM Hmax Hr. rewrite randomNumber_eq, window_min_only by assumption.
  change (2 ^ 30) with 1073741824 in HM.
  destruct (300000 <? M) eqn:E; cbn [fst snd]; split; intros H; try lia.
  - apply draw_in_window; [lia | reflexivity | assumption].
  - apply draw_in_window; [lia | change (2 ^ 31) with 2147483648; lia | assumption].
Qed.

End BackoffFacts.

Section BackoffClaims.
Import Binary64 Backoff.
Local Open Scope Z_scope.

(** C6 (as amended).  With only a minimum [M], and [ratio] any double in
    [0, 1) returned by the random source: for [1 <= M <= 300000] the delay
    lies in [M, 2M]; for [300000 < M < 2^30] it lies in the capped window
    [300000, 600000]; with [M] zero or unset, [randomNumber] without a
    maximum returns 0 or 1, while [defaultBackOff] draws from [0, 2000];
    [defaultBackOff 1000] lies in [1000, 2001). *)
Theorem backoff_min_only (M ratio : Z) :
  0 <= ratio < scale -> is_double ratio ->
  (1 <= M <= 300000 ->
     M <= defaultBackOff (Num M) ratio <= 2 * M /\
     M <= randomNumber (Num M) Undefined ratio <= 2 * M) /\
  (300000 < M < 2 ^ 30 ->
     300000 <= defaultBackOff (Num M) ratio <= 600000 /\
     300000 <= randomNumber (Num M) Undefined ratio <= 600000) /\
  (0 <= randomNumber (Num 0) Undefined ratio < 2 /\
   0 <= randomNumber Undefined Undefined ratio < 2) /\
  (0 <= defaultBackOff (Num 0) ratio <= 2000 /\
   0 <= defaultBackOff Undefined ratio <= 2000) /\
  1000 <= defaultBackOff (Num 1000) ratio < 2001.
Proof.
  intros Hr Hd.
  assert (2 ^ 30 = 1073741824) as H30 by reflexivity.
  assert (2 ^ 31 = 2147483648) as H31 by reflexivity.
  assert (forall v, v = Undefined \/ v = Num 0 ->
            0 <= randomNumber v Undefined ratio < 2) as Hzero.
  { intros v Hv. rewrite randomNumber_eq, window_unset_unset by assumption.
    apply draw_from_zero; [lia | assumption | assumption]. }
  assert (forall v, v = Undefined \/ v = Num 0 ->
            0 <= randomNumber v (Num 2000) ratio <= 2000) as Hdef.
  { intros v Hv. rewrite randomNumber_eq, window_unset_default by assumption.
    pose proof (draw_from_zero 2001 ratio ltac:(lia) Hr Hd) as Hb.
    cbn [fst snd]. lia. }
  split; [| split; [| split; [| split]]].
  - intros HM. rewrite defaultBackOff_truthy by lia.
    split; apply randomNumber_min_only; auto; lia.
  - intros HM. rewrite defaultBackOff_truthy by lia.
    split; apply randomNumber_min_only; auto; lia.
  - split; apply Hzero; auto.
  - split; [apply (Hdef (Num 0)) | apply (Hdef Undefined)]; auto.
  - rewrite defaultBackOff_truthy by lia.
    pose proof (randomNumber_min_only 1000 ratio (Num 0)
                  ltac:(lia) ltac:(auto) Hr) as [H _].
    lia.
Qed.

Lemma backoff_min_only_witness :
  0 <= 2 ^ 1073 < scale /\ is_double (2 ^ 1073) /\ 1 <= 1000 <= 300000 /\
  1000 <= defaultBackOff (Num 1000) (2 ^ 1073) <= 2 * 1000.
Proof.
  assert (0 <= 2 ^ 1073 < scale) as Hr by (vm_compute; split; congruence).
  assert (is_double (2 ^ 1073)) as Hd by (vm_compute; reflexivity).
  assert (1 <= 1000 <= 300000) as HM by lia.
  split; [exact Hr | split; [exact Hd | split; [exact HM |]]].
  exact (proj1 (proj1 (backoff_min_only 1000 (2 ^ 1073) Hr Hd) HM)).
Defined.

(** C6 as stated fails: a minimum of 500000 ms with a random draw of 0
    gives 300000, below the minimum, from [defaultBackOff] and from
    [randomNumber] without a maximum alike; and [defaultBackOff] with the
    minimum 0 and a random draw of one half gives 1000, outside [0, 2). *)
Lemma backoff_min_only_counterexample :
  ~ (500000 <= defaultBackOff (Num 500000) 0 <= 2 * 500000) /\
  ~ (500000 <= randomNumber (Num 500000) Undefined 0 <= 2 * 500000) /\
  ~ (0 <= defaultBackOff (Num 0) (2 ^ 1073) < 2).
Proof.
  assert (defaultBackOff (Num 500000) 0 = 300000) as -> by (vm_compute; reflexivity).
  assert (randomNumber (Num 500000) Undefined 0 = 300000) as ->
    by (vm_compute; reflexivity).
  assert (defaultBackOff (Num 0) (2 ^ 1073) = 1000) as -> by (vm_compute; reflexivity).
  repeat split; lia.
Qed.

(** The upper ends are reached: with the largest double below 1 the sum
    [range * ratio + min] rounds up to the end of the window. *)
Example backoff_reaches_upper_end :
  defaultBackOff (Num 1000) pred_one = 2000 /\
  defaultBackOff (Num 500000) pred_one = 600000 /\
  defaultBackOff (Num 0) pred_one = 2000 /\
  randomNumber (Num 0) Undefined pred_one = 1.
Proof. repeat split; vm_compute; reflexivity. Qed.

(** C7 at a failing input.  For a minimum of [2^30] ms the doubling
    [min << 1] wraps to [-2^31], the cap is not taken, and the delay leaves
    [0, 600000]: [2^30] for a random draw of 0, a negative delay for a draw
    of one half. *)
Theorem backoff_cap_escapes :
  defaultBackOff (Num (2 ^ 30)) 0 = 1073741824 /\
  defaultBackOff (Num (2 ^ 30)) (2 ^ 1073) = -536870912 /\
  ~ (0 <= defaultBackOff (Num (2 ^ 30)) 0 <= 600000).
Proof.
  assert (defaultBackOff (Num (2 ^ 30)) 0 = 1073741824) as H0
    by (vm_compute; reflexivity).
  split; [exact H0 | split; [vm_compute; reflexivity | rewrite H0; lia]].
Qed.

(** Below [2^30] the cap holds: the delay is within [0, 600000]. *)
Lemma backoff_capped_below_wrap (M ratio : Z) :
  0 <= M < 2 ^ 30 -> 0 <= ratio < scale -> is_double ratio ->
  0 <= defaultBackOff (Num M) ratio <= 600000.
Proof.
  intros HM Hr Hd.
  assert (2 ^ 30 = 1073741824) as H30 by reflexivity.
  assert (2 ^ 31 = 2147483648) as H31 by reflexivity.
  destruct (Z.eq_dec M 0) as [-> | Hne].
  - unfold defaultBackOff. cbn [falsy Z.eqb].
    rewrite randomNumber_eq, window_unset_default by auto. cbn [fst snd].
    pose proof (draw_from_zero 2001 ratio ltac:(lia) Hr Hd). lia.
  - rewrite defaultBackOff_truthy by assumption.
    pose proof (randomNumber_min_only M ratio (Num 0)
                  ltac:(lia) ltac:(auto) Hr) as [H1 H2].
    destruct (Z.le_gt_cases M 300000); [specialize (H1 ltac:(lia)) | specialize (H2 ltac:(lia))]; lia.
Qed.

End BackoffClaims.

(** ** The guard of [adapterFun] *)
Section AdapterClaims.
Import JS Adapter.



(** A handle that is neither closed nor destroyed gets past the guard. *)
Lemma adapterFun_open (self : handle) :
  truthy (_closed self) = false -> truthy (_destroyed self) = false ->
  exists s effects, adapterFun self = (s, effects) /\
    (In AddTask effects \/ In ApplyCallback effects).
Proof.
  intros Hc Hd. unfold adapterFun, toPromise, adapterFun_body.
  rewrite Hc, Hd.
  destruct (negb (truthy (taskqueue_isReady self))); eexists _, _;
    (split; [reflexivity |]); [left | right];
    apply in_or_app; right; left; reflexivity.
Qed.

End AdapterClaims.

(** ** The change filter *)
Section FilterClaims.
Import JS Filter.




End FilterClaims.

(** ** The change-feed listener *)
Section ChangesClaims.
Import JS Changes.

Lemma single_flight_eventFunction (st : state) :
  single_flight st -> single_flight (eventFunction st).
Proof.
  unfold single_flight, eventFunction.
  destruct (listed st), (inprogress st) eqn:E; cbn; rewrite ?E; intros H; lia.
Qed.

Lemma single_flight_step (st : state) (ev : event) :
  single_flight st -> single_flight (step st ev).
Proof.
  intros H. destruct ev; cbn [step].
  - destruct (listed st); [apply single_flight_eventFunction|]; assumption.
  - destruct (immediates st); [assumption|].
    apply single_flight_eventFunction. exact H.
  - unfold onChangeEvent.
    destruct (gt_value _ _ && not_cancelled _); assumption.
  - destruct (upstream st) eqn:E; [assumption|].
    unfold single_flight, onComplete in *. cbn. rewrite E.
    destruct (inprogress st); cbn; lia.
  - destruct (upstream st) eqn:E; [assumption|].
    unfold single_flight, onError in *. cbn. rewrite E.
    destruct (inprogress st); cbn; lia.
  - exact H.
  - exact H.
Qed.

Lemma single_flight_run (opts0 : gmap string value) (evs : list event) :
  single_flight (run opts0 evs).
Proof.
  unfold run. induction evs as [|ev evs IH] using rev_ind.
  - reflexivity.
  - rewrite foldl_app. cbn [foldl]. apply single_flight_step, IH.
Qed.

(** Triggers that arrive during a run leave the listener waiting. *)
Lemma burst_waits (st : state) (k : nat) :
  listed st = true -> inprogress st = Running ->
  foldl step st (repeat Emit (S k)) =
  State true Waiting (opts st) (upstream st) (calls st) (immediates st) (delivered st).
Proof.
  intros Hl Hp. induction k as [|k IH].
  - cbn. rewrite Hl. unfold eventFunction. rewrite Hl, Hp. reflexivity.
  - replace (repeat Emit (S (S k))) with (repeat Emit (S k) ++ [Emit]).
    + rewrite foldl_app, IH. reflexivity.
    + change ([Emit]) with (repeat Emit 1). rewrite <- repeat_app.
      f_equal. lia.
Qed.

(** C3.  Whatever happens to a listener, at most one upstream call is in
    flight; a trigger that arrives during a run starts no call; the end of a
    run queues at most one follow-up; and one trigger followed by two or
    more triggers during the run ([S k] of them), the end of the run, the
    queued follow-up and the end of that run make exactly two upstream
    calls and leave the listener idle with nothing queued. *)
Theorem changes_single_flight (opts0 : gmap string value) (evs : list event) (k : nat) :
  upstream (run opts0 evs) <= 1 /\
  (upstream (run opts0 evs) = 1 ->
   calls (step (run opts0 evs) Emit) = calls (run opts0 evs) /\
   upstream (step (run opts0 evs) Emit) = 1) /\
  immediates (step (run opts0 evs) Complete) <= S (immediates (run opts0 evs)) /\
  (let st := run opts0 (Emit :: repeat Emit (S k) ++ [Complete; Immediate; Complete]) in
   length (calls st) = 2 /\ upstream st = 0 /\ immediates st = 0 /\
   inprogress st = Idle).
Proof.
  pose proof (single_flight_run opts0 evs) as Hinv.
  set (st := run opts0 evs) in *.
  split; [| split; [| split]].
  - unfold single_flight in Hinv. destruct (inprogress st); lia.
  - intros Hup. unfold single_flight in Hinv. cbn [step].
    destruct (listed st) eqn:Hl; [| auto].
    unfold eventFunction. rewrite Hl.
    destruct (inprogress st); cbn; auto. lia.
  - cbn [step]. destruct (upstream st); [lia|].
    unfold onComplete. cbn. destruct (inprogress st); lia.
  - unfold run. cbn [foldl]. rewrite foldl_app.
    rewrite burst_waits by reflexivity. cbn. auto.
Qed.

Lemma changes_single_flight_witness :
  upstream (run since_zero [Emit]) = 1 /\
  calls (step (run since_zero [Emit]) Emit) = calls (run since_zero [Emit]) /\
  upstream (step (run since_zero [Emit]) Emit) = 1.
Proof.
  split; [reflexivity|].
  exact (proj1 (proj2 (changes_single_flight since_zero [Emit] 1)) eq_refl).
Defined.










End ChangesClaims.

(** ** The bulk-get shim *)
Section BulkGetRuns.
Import JS BulkGet.

(** C1 at a failing input.  For eight distinct ids the first batch puts six
    fetches in flight and holds back the ids 7 and 8; when the first of the
    six is answered, [nextBatch] starts both, and seven fetches are in
    flight, one more than [MAX_NUM_CONCURRENT_REQUESTS]. *)
Theorem bulkGet_window_exceeded (opts : gmap string value) (resp : response) :
  map f_id (inflight (bulkGet opts eight_ids))
    = ["doc1"; "doc2"; "doc3"; "doc4"; "doc5"; "doc6"] /\
  map f_id (inflight (run opts eight_ids [Complete 0 resp]))
    = ["doc2"; "doc3"; "doc4"; "doc5"; "doc6"; "doc7"; "doc8"] /\
  length (inflight (run opts eight_ids [Complete 0 resp]))
    = S MAX_NUM_CONCURRENT_REQUESTS.
Proof.
  split; [reflexivity|]. destruct resp; split; reflexivity.
Qed.

Lemma run_snoc (opts : gmap string value) (requests : list request)
  (evs : list event) (ev : event) :
  run opts requests (evs ++ [ev]) = step opts requests (run opts requests evs) ev.
Proof. unfold run. rewrite foldl_app. reflexivity. Qed.

(** Two revisions of one document in one call are fetched together, and
    the answer is exploded into one entry per revision. *)
Example bulkGet_two_revisions :
  map (fun f => (f_id f, f_opts f !! "open_revs"))
      (issued (bulkGet ∅ two_revs_and_one))
    = [("doc1", Some (VArr [VStr "1-a"; VStr "2-b"])); ("doc2", None)] /\
  finished (run ∅ two_revs_and_one two_revs_answers) = [two_revs_results].
Proof. split; vm_compute; reflexivity. Qed.

(** C5 at a failing input.  With an empty list of requests nothing is
    fetched and [callback] is never called, whatever happens afterwards. *)
Theorem bulkGet_empty_never_finishes (opts : gmap string value) (evs : list event) :
  run opts [] evs = bulkGet opts [] /\
  inflight (run opts [] evs) = [] /\
  finished (run opts [] evs) = [].
Proof.
  assert (run opts [] evs = bulkGet opts []) as ->; [| repeat split; reflexivity].
  induction evs as [|ev evs IH] using rev_ind; [reflexivity|].
  rewrite run_snoc, IH. destruct ev. reflexivity.
Qed.

End BulkGetRuns.

(** Grouping the requests by id. *)
Section Grouping.
Import JS BulkGet.

Lemma group_add_keys (r : request) (m : list (string * list request)) :
  map fst (group_add r m) = map fst m \/
  ((req_id r ∉ map fst m) /\ map fst (group_add r m) = map fst m ++ [req_id r]).
Proof.
  induction m as [|[k rs] m IH]; cbn.
  - right. split; [apply not_elem_of_nil | reflexivity].
  - destruct (String.eqb_spec k (req_id r)) as [->|Hne]; cbn.
    + left. reflexivity.
    + destruct IH as [IH | [Hnot IH]]; rewrite IH; [left; reflexivity|].
      right. split; [| reflexivity].
      rewrite not_elem_of_cons. split; [congruence | assumption].
Qed.

Lemma group_add_NoDup (r : request) (m : list (string * list request)) :
  NoDup (map fst m) -> NoDup (map fst (group_add r m)).
Proof.
  intros Hnd. destruct (group_add_keys r m) as [-> | [Hnot ->]]; [assumption|].
  apply NoDup_app. repeat split; [assumption | | apply NoDup_singleton].
  intros x Hx Hx'. apply list_elem_of_singleton in Hx'. subst. contradiction.
Qed.

Lemma group_add_total (r : request) (m : list (string * list request)) :
  sum_list (group_sizes (group_add r m)) = S (sum_list (group_sizes m)).
Proof.
  induction m as [|[k rs] m IH]; cbn; [reflexivity|].
  destruct (String.eqb k (req_id r)); cbn.
  - rewrite length_app. cbn. lia.
  - unfold group_sizes in IH. rewrite IH. lia.
Qed.

Lemma requestsById_NoDup (requests : list request) :
  NoDup (allRequests requests).
Proof.
  unfold allRequests, requestsById.
  induction requests as [|r requests IH] using rev_ind; [constructor|].
  rewrite foldl_app. cbn. apply group_add_NoDup, IH.
Qed.

(** Every request is in exactly one group. *)
Lemma requestsById_total (requests : list request) :
  sum_list (group_sizes (requestsById requests)) = length requests.
Proof.
  unfold requestsById.
  induction requests as [|r requests IH] using rev_ind; [reflexivity|].
  rewrite foldl_app, length_app. cbn. rewrite group_add_total, IH. lia.
Qed.

Lemma get_group_lookup (m : list (string * list request)) (k : nat)
  (docId : string) (rs : list request) :
  NoDup (map fst m) -> m !! k = Some (docId, rs) -> get_group m docId = rs.
Proof.
  revert k. induction m as [|[k' rs'] m IH]; intros k Hnd Hk; [discriminate|].
  cbn in Hnd. apply NoDup_cons in Hnd as [Hnot Hnd]. cbn.
  destruct k as [|k]; cbn in Hk.
  - injection Hk as -> ->. rewrite String.eqb_refl. reflexivity.
  - destruct (String.eqb_spec k' docId) as [->|Hne]; [| eauto].
    exfalso. apply Hnot. apply list_elem_of_fmap. exists (docId, rs).
    split; [reflexivity|]. eapply list_elem_of_lookup_2. exact Hk.
Qed.

End Grouping.

(** The state machine of one invocation. *)
Section BulkGetInvariant.
Import JS BulkGet.
Variable opts : gmap string value.
Variable requests : list request.

Local Abbreviation all := (allRequests requests).
Local Abbreviation n := (numDocs requests).

Lemma numDocs_all : length all = n.
Proof. unfold allRequests, numDocs. apply length_map. Qed.

Lemma fetch_for_idx (k : nat) (docId : string) :
  f_idx (fetch_for opts requests k docId) = k.
Proof. unfold fetch_for. destruct (docOptsFor _ _). reflexivity. Qed.

Lemma fetch_for_id (k : nat) (docId : string) :
  f_id (fetch_for opts requests k docId) = docId.
Proof. unfold fetch_for. destruct (docOptsFor _ _). reflexivity. Qed.

Lemma fetches_from_idx (off : nat) (batch : list string) :
  map f_idx (fetches_from opts requests off batch) = seq off (length batch).
Proof.
  revert off. induction batch as [|docId batch IH]; intros off; cbn; [reflexivity|].
  rewrite fetch_for_idx, IH. reflexivity.
Qed.

Lemma fetches_from_app (off : nat) (a b : list string) :
  fetches_from opts requests off (a ++ b) =
  fetches_from opts requests off a ++ fetches_from opts requests (off + length a) b.
Proof.
  revert off. induction a as [|x a IH]; intros off; cbn.
  - rewrite Nat.add_0_r. reflexivity.
  - rewrite IH. do 3 f_equal. lia.
Qed.

Lemma fetches_from_elem (off : nat) (batch : list string) (f : fetch) :
  f ∈ fetches_from opts requests off batch ->
  exists j docId, batch !! j = Some docId /\
                  f = fetch_for opts requests (off + j) docId.
Proof.
  revert off. induction batch as [|x batch IH]; intros off; cbn.
  - intros H. apply elem_of_nil in H. contradiction.
  - intros H. apply elem_of_cons in H as [-> | H].
    + exists 0, x. rewrite Nat.add_0_r. split; reflexivity.
    + destruct (IH _ H) as (j & docId & Hj & ->).
      exists (S j), docId. split; [exact Hj|]. f_equal. lia.
Qed.

Lemma processBatch_spec (batch : list string) (off : nat) (st : state) :
  processBatch opts requests batch off st =
  State (i st) (numDone st) (perDocResults st)
        (inflight st ++ fetches_from opts requests off batch)
        (issued st ++ fetches_from opts requests off batch) (finished st).
Proof.
  revert off st. induction batch as [|docId batch IH]; intros off st; cbn.
  - rewrite !app_nil_r. destruct st; reflexivity.
  - rewrite IH. cbn. rewrite <- !app_assoc. reflexivity.
Qed.

Lemma next_batch_length (st : state) :
  i st <= n ->
  length (next_batch requests st) = next_upTo requests st - i st.
Proof.
  intros Hi. unfold next_batch, next_upTo.
  rewrite length_take, length_drop, numDocs_all. lia.
Qed.


Lemma nextBatch_spec (st : state) :
  i st <= n ->
  nextBatch opts requests st =
  State (next_upTo requests st) (numDone st) (perDocResults st)
        (inflight st ++ fetches_from opts requests (i st) (next_batch requests st))
        (issued st ++ fetches_from opts requests (i st) (next_batch requests st))
        (finished st).
Proof.
  intros Hi. unfold nextBatch. rewrite numDocs_all.
  destruct (n <=? i st) eqn:E.
  - apply Nat.leb_le in E. assert (i st = n) as Heq by lia.
    unfold next_batch, next_upTo. rewrite Heq.
    replace (Nat.min (n + MAX_NUM_CONCURRENT_REQUESTS) n - n) with 0 by lia.
    cbn. rewrite !app_nil_r.
    replace (Nat.min (n + MAX_NUM_CONCURRENT_REQUESTS) n) with (i st) by lia.
    destruct st; reflexivity.
  - apply Nat.leb_gt in E. rewrite processBatch_spec. cbn.
    fold (next_upTo requests st). fold (next_batch requests st).
    rewrite next_batch_length by assumption. f_equal.
    unfold next_upTo. lia.
Qed.

Lemma filled_le (slots : list (option per_doc)) :
  length (omap id slots) <= length slots.
Proof. induction slots as [|[pd|] slots IH]; cbn; lia. Qed.

Lemma filled_insert (slots : list (option per_doc)) (k : nat) (pd : per_doc) :
  slots !! k = Some None ->
  length (omap id (<[k := Some pd]> slots)) = S (length (omap id slots)).
Proof.
  revert k. induction slots as [|o slots IH]; intros k Hk; [discriminate|].
  destruct k as [|k]; cbn in *.
  - injection Hk as ->. reflexivity.
  - destruct o; cbn; [f_equal|]; apply IH, Hk.
Qed.

Lemma filled_lt (slots : list (option per_doc)) (k : nat) :
  slots !! k = Some None -> length (omap id slots) < length slots.
Proof.
  revert k. induction slots as [|o slots IH]; intros k Hk; [discriminate|].
  destruct k as [|k]; cbn in *.
  - injection Hk as ->. cbn. pose proof (filled_le slots). lia.
  - specialize (IH k Hk). destruct o; cbn; lia.
Qed.

Lemma filled_all (slots : list (option per_doc)) (k : nat) :
  length (omap id slots) = length slots -> k < length slots ->
  exists pd, slots !! k = Some (Some pd).
Proof.
  intros Hfull Hk.
  destruct (lookup_lt_is_Some_2 slots k Hk) as [[pd|] Hs]; [eauto|].
  apply filled_lt in Hs. lia.
Qed.

Lemma take_fetch_perm (idx : nat) (l : list fetch) (f : fetch) (others : list fetch) :
  take_fetch idx l = Some (f, others) -> f_idx f = idx /\ l ≡ₚ f :: others.
Proof.
  revert others. induction l as [|g l IH]; intros others; cbn; [discriminate|].
  destruct (f_idx g =? idx) eqn:E.
  - intros [= -> ->]. apply Nat.eqb_eq in E. split; [assumption | reflexivity].
  - destruct (take_fetch idx l) as [[h l'']|]; [| discriminate].
    intros [= -> <-]. destruct (IH _ eq_refl) as [Hidx Hperm].
    split; [assumption|]. rewrite Hperm. apply Permutation_swap.
Qed.

Lemma inv_init :
  inv opts requests (State 0 0 (replicate n None) [] [] []).
Proof.
  constructor; cbn.
  - apply length_replicate.
  - lia.
  - intros k pd Hk. apply lookup_replicate in Hk as [Hk _]. discriminate.
  - intros k Hk. lia.
  - constructor.
  - constructor.
  - induction n; cbn; auto.
  - reflexivity.
  - intros results [].
  - lia.
  - reflexivity.
Qed.

Lemma inv_nextBatch (st : state) :
  inv opts requests st -> inv opts requests (nextBatch opts requests st).
Proof.
  intros [Hlen Hi Hfilled Hpending Hin Hnd Hdone Hearly Honce Hfired Hissued].
  rewrite nextBatch_spec by assumption.
  pose proof (next_batch_length st Hi) as Hbl.
  assert (i st <= next_upTo requests st <= n) as Hup
    by (unfold next_upTo; lia).
  constructor; cbn; try assumption.
  - lia.
  - intros k pd Hk. destruct (Hfilled k pd Hk) as (Hlt & Hall & Hnot).
    split; [lia | split; [assumption|]].
    rewrite map_app, fetches_from_idx. intros Hk'.
    apply elem_of_app in Hk' as [Hk' | Hk']; [contradiction|].
    apply elem_of_seq in Hk'. lia.
  - intros k Hk Hslot. rewrite map_app, fetches_from_idx.
    apply elem_of_app.
    destruct (Nat.lt_ge_cases k (i st)) as [Hlt | Hge]; [left; auto|].
    right. apply elem_of_seq. lia.
  - apply Forall_app. split.
    + eapply Forall_impl; [exact Hin|]. cbn. intros f (H1 & H2 & H3).
      split; [lia | split; assumption].
    + apply Forall_forall. intros f Hf.
      apply fetches_from_elem in Hf as (j & docId & Hj & ->).
      rewrite fetch_for_idx, fetch_for_id.
      pose proof (lookup_lt_Some _ _ _ Hj) as Hjlt.
      unfold next_batch in Hj.
      rewrite lookup_take_lt, lookup_drop in Hj by lia.
      split; [lia | split; [assumption | reflexivity]].
  - rewrite map_app, fetches_from_idx. apply NoDup_app.
    split; [assumption | split; [| apply NoDup_seq]].
    intros k Hk Hk'. apply elem_of_seq in Hk'.
    apply list_elem_of_fmap in Hk as (f & -> & Hf).
    rewrite Forall_forall in Hin. destruct (Hin f Hf) as (Hlt & _). lia.
  - rewrite Hissued.
    replace (next_upTo requests st) with (i st + (next_upTo requests st - i st)) by lia.
    rewrite <- take_take_drop, fetches_from_app. f_equal.
    rewrite length_take, numDocs_all. cbn. f_equal. lia.
Qed.

Lemma live_nextBatch (st : state) :
  i st <= n -> live requests (nextBatch opts requests st).
Proof.
  intros Hi. rewrite nextBatch_spec by assumption. unfold live. cbn.
  intros Hlt Hnil. apply app_eq_nil in Hnil as [_ Hnil].
  apply (f_equal length) in Hnil.
  assert (length (fetches_from opts requests (i st) (next_batch requests st))
          = length (next_batch requests st)) as Hl.
  { rewrite <- (length_map f_idx), fetches_from_idx. apply length_seq. }
  rewrite Hl, next_batch_length in Hnil by assumption. cbn in Hnil.
  unfold next_upTo, MAX_NUM_CONCURRENT_REQUESTS in *. lia.
Qed.

(** An answered fetch fills its own, still empty, slot. *)
Lemma inv_inflight_slot (st : state) (f : fetch) :
  inv opts requests st -> f ∈ inflight st ->
  f_idx f < i st /\ allRequests requests !! f_idx f = Some (f_id f) /\
  f = fetch_for opts requests (f_idx f) (f_id f) /\
  perDocResults st !! f_idx f = Some None.
Proof.
  intros Hinv Hf. destruct Hinv as [Hlen Hi Hfilled _ Hin _ _ _ _ _ _].
  rewrite Forall_forall in Hin. destruct (Hin f Hf) as (Hlt & Hall & Heq).
  repeat split; try assumption.
  destruct (lookup_lt_is_Some_2 (perDocResults st) (f_idx f)) as [[pd|] Hs];
    [lia | | assumption].
  destruct (Hfilled _ _ Hs) as (_ & _ & Hnot). exfalso. apply Hnot.
  apply list_elem_of_fmap. eauto.
Qed.

Lemma inv_complete (st : state) (idx : nat) (f : fetch) (others : list fetch)
  (docs : value) (fin : list (list entry)) :
  inv opts requests st ->
  take_fetch idx (inflight st) = Some (f, others) ->
  (fin = [] /\
   (S (numDone st) = n ->
    collapseResults (<[f_idx f := Some (PerDoc (f_id f) docs)]> (perDocResults st))
      = None)) \/
  (S (numDone st) = n /\
   exists results,
     collapseResults (<[f_idx f := Some (PerDoc (f_id f) docs)]> (perDocResults st))
       = Some results /\ fin = [results]) ->
  inv opts requests
    (State (i st) (S (numDone st))
           (<[f_idx f := Some (PerDoc (f_id f) docs)]> (perDocResults st))
           others (issued st) fin).
Proof.
  intros Hinv Htake Hfin.
  destruct (take_fetch_perm _ _ _ _ Htake) as [Hidx Hperm].
  assert (f ∈ inflight st) as Hf by (rewrite Hperm; left).
  destruct (inv_inflight_slot st f Hinv Hf) as (Hlt & Hall & Heq & Hslot).
  destruct Hinv as [Hlen Hi Hfilled Hpending Hin Hnd Hdone Hearly Honce Hfired Hissued].
  assert (NoDup (f_idx f :: map f_idx others)) as Hnd'.
  { change (NoDup (map f_idx (f :: others))). rewrite <- Hperm. exact Hnd. }
  apply NoDup_cons in Hnd' as [Hfresh Hnd'].
  constructor; cbn.
  - rewrite length_insert. assumption.
  - assumption.
  - intros k pd Hk.
    destruct (Nat.eq_dec (f_idx f) k) as [<- | Hne].
    + rewrite list_lookup_insert_eq in Hk by lia. injection Hk as <-.
      cbn. auto.
    + rewrite list_lookup_insert_ne in Hk by assumption.
      destruct (Hfilled k pd Hk) as (H1 & H2 & H3).
      split; [assumption | split; [assumption|]].
      intros Hk'. apply H3. rewrite Hperm. cbn. right. exact Hk'.
  - intros k Hk Hk'.
    destruct (Nat.eq_dec (f_idx f) k) as [<- | Hne].
    + rewrite list_lookup_insert_eq in Hk' by lia. discriminate.
    + rewrite list_lookup_insert_ne in Hk' by assumption.
      specialize (Hpending k Hk Hk'). rewrite Hperm in Hpending. cbn in Hpending.
      apply elem_of_cons in Hpending as [-> | H]; [contradiction | assumption].
  - rewrite Hperm in Hin. apply Forall_cons in Hin as [_ Hin]. exact Hin.
  - exact Hnd'.
  - rewrite filled_insert by assumption. rewrite Hdone. reflexivity.
  - intros Hsmall. destruct Hfin as [[-> _] | (Hfull & _)]; [reflexivity | lia].
  - intros results Hr. destruct Hfin as [[-> _] | (Hfull & results' & Hc & ->)].
    + destruct Hr.
    + destruct Hr as [<- | []]. auto.
  - intros Hpos Hfull Hempty.
    destruct Hfin as [[_ Hcrash] | (_ & results' & _ & ->)];
      [auto | discriminate].
  - assumption.
Qed.

Lemma inv_full (st : state) :
  inv opts requests st -> numDone st = n -> i st = n.
Proof.
  intros [Hlen Hi Hfilled _ _ _ Hdone _ _ _ _] Hfull.
  destruct n as [|m] eqn:En; [lia|].
  destruct (filled_all (perDocResults st) m) as [pd Hpd]; [lia | lia |].
  destruct (Hfilled _ _ Hpd) as (Hlt & _). lia.
Qed.

Lemma step_inv (st : state) (ev : event) :
  inv opts requests st /\ live requests st ->
  inv opts requests (step opts requests st ev) /\
  live requests (step opts requests st ev).
Proof.
  intros [Hinv Hlive]. destruct ev as [idx resp]. cbn [step].
  destruct (take_fetch idx (inflight st)) as [[f others]|] eqn:Htake; [| auto].
  destruct (take_fetch_perm _ _ _ _ Htake) as [Hidx Hperm].
  assert (f ∈ inflight st) as Hf by (rewrite Hperm; left).
  destruct (inv_inflight_slot st f Hinv Hf) as (Hlt & Hall & Heq & Hslot).
  assert (finished st = []) as Hnone.
  { apply (inv_early _ _ _ Hinv). rewrite (inv_done _ _ _ Hinv).
    pose proof (filled_lt _ _ Hslot) as H. rewrite (inv_len _ _ _ Hinv) in H.
    exact H. }
  unfold gotResult. cbn [i numDone perDocResults inflight issued finished].
  destruct (S (numDone st) =? n) eqn:Efull.
  - apply Nat.eqb_eq in Efull.
    destruct (collapseResults _) as [results|] eqn:Hc.
    + rewrite Hnone. cbn [app].
      assert (inv opts requests
                (State (i st) (S (numDone st))
                   (<[f_idx f := Some (PerDoc (f_id f) (result_of f resp))]>
                      (perDocResults st)) others (issued st) [results])) as Hinv'.
      { eapply inv_complete; eauto. }
      split; [apply inv_nextBatch, Hinv' |].
      apply live_nextBatch. cbn. apply (inv_i _ _ _ Hinv).
    + assert (inv opts requests
                (State (i st) (S (numDone st))
                   (<[f_idx f := Some (PerDoc (f_id f) (result_of f resp))]>
                      (perDocResults st)) others (issued st) (finished st))) as Hinv'.
      { rewrite Hnone. eapply inv_complete; eauto. }
      split; [exact Hinv'|].
      intros Hi. cbn in Hi. pose proof (inv_full _ Hinv' Efull) as Hn.
      cbn in Hn. lia.
  - assert (inv opts requests
              (State (i st) (S (numDone st))
                 (<[f_idx f := Some (PerDoc (f_id f) (result_of f resp))]>
                    (perDocResults st)) others (issued st) (finished st))) as Hinv'.
    { rewrite Hnone. eapply inv_complete; eauto.
      left. split; [reflexivity|]. apply Nat.eqb_neq in Efull. intros; lia. }
    split; [apply inv_nextBatch, Hinv' |].
    apply live_nextBatch. cbn. apply (inv_i _ _ _ Hinv).
Qed.

Lemma run_inv (evs : list event) :
  inv opts requests (run opts requests evs) /\
  live requests (run opts requests evs).
Proof.
  induction evs as [|ev evs IH] using rev_ind.
  - unfold run. cbn. unfold bulkGet. split.
    + apply inv_nextBatch, inv_init.
    + apply live_nextBatch. cbn. lia.
  - rewrite run_snoc. apply step_inv, IH.
Qed.

(** Every call of [db.get] so far is the one [processBatch] makes for its
    id. *)
Lemma issued_fetch (evs : list event) (f : fetch) :
  f ∈ issued (run opts requests evs) ->
  allRequests requests !! f_idx f = Some (f_id f) /\
  f = fetch_for opts requests (f_idx f) (f_id f).
Proof.
  destruct (run_inv evs) as [Hinv _]. rewrite (inv_issued _ _ _ Hinv).
  intros Hf. apply fetches_from_elem in Hf as (j & docId & Hj & ->).
  rewrite fetch_for_idx, fetch_for_id. cbn.
  apply lookup_take_Some in Hj as [Hj _]. auto.
Qed.

(** What a step does to the slots. *)
Lemma step_slots (st : state) (ev : event) :
  perDocResults (step opts requests st ev) = perDocResults st \/
  exists f idx resp, ev = Complete idx resp /\ f ∈ inflight st /\ f_idx f = idx /\
    perDocResults (step opts requests st ev) =
    <[f_idx f := Some (PerDoc (f_id f) (result_of f resp))]> (perDocResults st).
Proof.
  destruct ev as [idx resp]. cbn [step].
  destruct (take_fetch idx (inflight st)) as [[f others]|] eqn:Htake; [| auto].
  destruct (take_fetch_perm _ _ _ _ Htake) as [Hidx Hperm].
  right. exists f, idx, resp.
  split; [reflexivity | split; [rewrite Hperm; left | split; [assumption|]]].
  unfold gotResult. cbn [i numDone perDocResults inflight issued finished].
  destruct (S (numDone st) =? n); [destruct (collapseResults _) |];
    try reflexivity; unfold nextBatch;
    match goal with |- context [if ?b then _ else _] => destruct b end;
    try reflexivity; rewrite processBatch_spec; reflexivity.
Qed.

(** If the store answers every fetch with one entry per request, every
    filled slot holds as many entries as its id has requests. *)
Lemma run_conforms (evs : list event) :
  forallb (answers_each_request opts requests) evs = true ->
  forall k pd, perDocResults (run opts requests evs) !! k = Some (Some pd) ->
               slot_conforms requests pd.
Proof.
  induction evs as [|ev evs IH] using rev_ind; intros Hall k pd Hk.
  - destruct (run_inv []) as [Hinv _].
    destruct (inv_filled _ _ _ Hinv k pd Hk) as (Hlt & _).
    unfold run, bulkGet in Hk. rewrite nextBatch_spec in Hk by (cbn; lia).
    cbn in Hk. apply lookup_replicate in Hk as [Hk _]. discriminate.
  - rewrite forallb_app in Hall. apply andb_true_iff in Hall as [Hall Hev].
    cbn in Hev. rewrite andb_true_r in Hev.
    rewrite run_snoc in Hk.
    destruct (step_slots (run opts requests evs) ev)
      as [Hsame | (f & idx & resp & -> & Hf & Hidx & Hnew)].
    + rewrite Hsame in Hk. eauto.
    + rewrite Hnew in Hk. destruct (run_inv evs) as [Hinv _].
      destruct (inv_inflight_slot _ f Hinv Hf) as (Hlt & Hlook & Heq & Hslot).
      destruct (Nat.eq_dec (f_idx f) k) as [<- | Hne].
      * rewrite list_lookup_insert_eq in Hk
          by (apply lookup_lt_is_Some; eauto).
        injection Hk as <-. unfold slot_conforms. cbn.
        unfold answers_each_request in Hev. rewrite <- Hidx, Hlook, <- Heq in Hev.
        destruct (result_of f resp); try discriminate.
        apply Nat.eqb_eq in Hev. eauto.
      * rewrite list_lookup_insert_ne in Hk by assumption. eauto.
Qed.

(** Every filled slot holds what the callback computed from the store's
    answer to the fetch of its id. *)
Lemma run_slot_origin (evs : list event) (k : nat) (pd : per_doc) :
  perDocResults (run opts requests evs) !! k = Some (Some pd) ->
  exists resp, In (Complete k resp) evs /\
    pd_docs pd = result_of (fetch_for opts requests k (pd_id pd)) resp.
Proof.
  induction evs as [|ev evs IH] using rev_ind; intros Hk.
  - unfold run, bulkGet in Hk. rewrite nextBatch_spec in Hk by (cbn; lia).
    cbn in Hk. apply lookup_replicate in Hk as [Hk _]. discriminate.
  - rewrite run_snoc in Hk.
    destruct (step_slots (run opts requests evs) ev)
      as [Hsame | (f & idx & resp & -> & Hf & Hidx & Hnew)].
    + rewrite Hsame in Hk. destruct (IH Hk) as (resp & Hin & Hdocs).
      exists resp. split; [apply in_or_app; left; exact Hin | exact Hdocs].
    + rewrite Hnew in Hk. destruct (run_inv evs) as [Hinv _].
      destruct (inv_inflight_slot _ f Hinv Hf) as (Hlt & Hlook & Heq & Hslot).
      destruct (Nat.eq_dec (f_idx f) k) as [<- | Hne].
      * rewrite list_lookup_insert_eq in Hk
          by (apply lookup_lt_is_Some; eauto).
        injection Hk as <-. cbn. exists resp. rewrite <- Heq, Hidx.
        split; [apply in_or_app; right; left; reflexivity | reflexivity].
      * rewrite list_lookup_insert_ne in Hk by assumption.
        destruct (IH Hk) as (resp' & Hin & Hdocs).
        exists resp'. split; [apply in_or_app; left; exact Hin | exact Hdocs].
Qed.

Lemma collapseResults_explode (slots : list (option per_doc)) (results : list entry) :
  collapseResults slots = Some results ->
  results = flat_map explode (omap id slots).
Proof.
  revert results. induction slots as [|[pd|] slots IH]; intros results; cbn.
  - intros [= <-]. reflexivity.
  - unfold explode. destruct (pd_docs pd); try discriminate.
    destruct (collapseResults slots) as [more|]; [| discriminate].
    intros [= <-]. rewrite (IH more eq_refl). reflexivity.
  - apply IH.
Qed.

Lemma explode_one_doc (pds : list per_doc) :
  Forall (fun e => length (e_docs e) = 1) (flat_map explode pds).
Proof.
  induction pds as [|pd pds IH]; cbn; [constructor|].
  apply Forall_app. split; [| exact IH].
  unfold explode. destruct (pd_docs pd); try constructor.
  apply Forall_forall. intros e He. apply list_elem_of_fmap in He as (info & -> & _).
  reflexivity.
Qed.

Lemma explode_length (pds : list per_doc) :
  Forall (slot_conforms requests) pds ->
  length (flat_map explode pds) =
  sum_list (map (fun pd => length (get_group (requestsById requests) (pd_id pd))) pds).
Proof.
  induction 1 as [|pd pds (infos & Hdocs & Hlen) _ IH]; cbn; [reflexivity|].
  rewrite length_app, IH. f_equal.
  unfold explode. rewrite Hdocs, length_map. exact Hlen.
Qed.

(** The sizes of the groups, looked up by id. *)
Lemma group_sizes_by_id (m : list (string * list request)) :
  NoDup (map fst m) ->
  map (fun docId => length (get_group m docId)) (map fst m) = group_sizes m.
Proof.
  intros Hnd. unfold group_sizes. rewrite map_map.
  apply list_eq. intros k. rewrite !list_lookup_fmap.
  destruct (m !! k) as [[docId rs]|] eqn:Hk; [| reflexivity]. cbn.
  rewrite (get_group_lookup m k docId rs Hnd Hk). reflexivity.
Qed.

(** Once every slot is filled, the slots list the ids in the order of
    their first request. *)
Lemma full_slots (st : state) :
  inv opts requests st -> numDone st = n ->
  map pd_id (omap id (perDocResults st)) = allRequests requests /\
  forall pd, pd ∈ omap id (perDocResults st) ->
             exists k, perDocResults st !! k = Some (Some pd).
Proof.
  intros Hinv Hfull. split.
  - pose proof (inv_len _ _ _ Hinv) as Hlen.
    pose proof (inv_done _ _ _ Hinv) as Hdone. rewrite Hfull in Hdone.
    assert (forall k pd, perDocResults st !! k = Some (Some pd) ->
                         allRequests requests !! k = Some (pd_id pd)) as Hids.
    { intros k pd Hk. apply (inv_filled _ _ _ Hinv k pd Hk). }
    rewrite <- numDocs_all in Hlen, Hdone.
    revert Hlen Hdone Hids. generalize (perDocResults st) (allRequests requests).
    induction l as [|o l IH]; intros ids Hlen Hdone Hids; destruct ids as [|x ids];
      try discriminate; [reflexivity|].
    cbn in Hlen. injection Hlen as Hlen.
    destruct o as [pd|]; cbn in *.
    + injection Hdone as Hdone.
      pose proof (Hids 0 pd eq_refl) as H0. cbn in H0. injection H0 as <-.
      f_equal. apply IH; [assumption | assumption |].
      intros k pd' Hk. apply (Hids (S k) pd' Hk).
    + pose proof (filled_le l). lia.
  - intros pd Hpd. apply list_elem_of_omap in Hpd as (o & Ho & Hid).
    cbn in Hid. subst o. apply list_elem_of_lookup in Ho. exact Ho.
Qed.

Lemma with_globals_lookup (d : gmap string value) (params : list string) (k : string) :
  with_globals opts d params !! k =
  if bool_decide (k ∈ params)
  then match opts !! k with Some v => Some v | None => d !! k end
  else d !! k.
Proof.
  unfold with_globals. revert d. induction params as [|p params IH]; intros d.
  - reflexivity.
  - cbn [foldl]. rewrite IH.
    destruct (decide (p = k)) as [-> | Hne].
    + rewrite (bool_decide_eq_true_2 (k ∈ k :: params)) by left.
      destruct (opts !! k) as [v|] eqn:Hk.
      * rewrite lookup_insert_eq. destruct (bool_decide _); reflexivity.
      * destruct (bool_decide _); reflexivity.
    + assert ((match opts !! p with Some v => <[p := v]> d | None => d end) !! k
              = d !! k) as ->.
      { destruct (opts !! p); [apply lookup_insert_ne; assumption | reflexivity]. }
      destruct (decide (k ∈ params)) as [Hin | Hnot].
      * rewrite !bool_decide_eq_true_2; [reflexivity | right; assumption | assumption].
      * rewrite !bool_decide_eq_false_2; [reflexivity | | assumption].
        rewrite not_elem_of_cons. auto.
Qed.

Lemma with_globals_empty (d : gmap string value) (params : list string) :
  with_globals ∅ d params = d.
Proof.
  unfold with_globals. induction params as [|p params IH]; [reflexivity|].
  cbn [foldl]. rewrite lookup_empty. exact IH.
Qed.

Lemma docOptsFor_lookup (docRequests : list request) (k : string) :
  fst (docOptsFor opts docRequests) !! k =
  if bool_decide (k ∈ global_params)
  then match opts !! k with
       | Some v => Some v
       | None => fst (docOptsFor ∅ docRequests) !! k
       end
  else fst (docOptsFor ∅ docRequests) !! k.
Proof.
  unfold docOptsFor.
  destruct (length (List.filter truthy (map req_rev docRequests)) =? 0);
    cbn [fst]; rewrite with_globals_lookup, with_globals_empty; reflexivity.
Qed.

(** C2 (as amended).  When [callback] is called, [results] has, for each
    distinct id in the order of its first request, one entry per element of
    the docs list stored for that id, which is what the callback of
    [db.get] computed from the store's answer to the fetch of that id; each
    entry carries that id and one element.  If the store has answered every
    fetch with as many entries as there were requests for its id, the
    number of entries is the number of requests. *)
Theorem bulkGet_results_count (evs : list event) (results : list entry) :
  In results (finished (run opts requests evs)) ->
  (exists slots : list per_doc,
      map pd_id slots = allRequests requests /\
      results = flat_map explode slots /\
      Forall (fun pd => exists k resp,
                allRequests requests !! k = Some (pd_id pd) /\
                In (Complete k resp) evs /\
                pd_docs pd = result_of (fetch_for opts requests k (pd_id pd)) resp)
             slots) /\
  Forall (fun e => length (e_docs e) = 1) results /\
  (forallb (answers_each_request opts requests) evs = true ->
   length results = length requests).
Proof.
  intros Hin. destruct (run_inv evs) as [Hinv _].
  destruct (inv_once _ _ _ Hinv results Hin) as (_ & Hfull & Hc).
  apply collapseResults_explode in Hc.
  destruct (full_slots _ Hinv Hfull) as [Hids Hslots].
  split; [| split].
  - exists (omap id (perDocResults (run opts requests evs))).
    split; [exact Hids | split; [exact Hc |]].
    apply Forall_forall. intros pd Hpd. destruct (Hslots pd Hpd) as [k Hk].
    destruct (run_slot_origin evs k pd Hk) as (resp & Hev & Hdocs).
    exists k, resp. split; [| split; assumption].
    apply (inv_filled _ _ _ Hinv k pd Hk).
  - rewrite Hc. apply explode_one_doc.
  - intros Hconf. rewrite Hc, explode_length.
    + rewrite <- (map_map pd_id
                    (fun docId => length (get_group (requestsById requests) docId))).
      rewrite Hids. unfold allRequests.
      rewrite group_sizes_by_id by apply requestsById_NoDup.
      apply requestsById_total.
    + apply Forall_forall. intros pd Hpd.
      destruct (Hslots pd Hpd) as [k Hk].
      eapply run_conforms; eauto.
Qed.

(** C9 (as amended).  The options of every fetch are those taken from the
    requests of its id (the first request's [atts_since] and [attachments],
    and [open_revs]), overridden by each of [revs], [attachments],
    [binary], [ajax] and [latest] that the global options have; no other
    global option, [atts_since] included, reaches a fetch. *)
Theorem bulkGet_global_options (evs : list event) (f : fetch) (k : string) :
  In f (issued (run opts requests evs)) ->
  (f_opts f !! k =
   if bool_decide (k ∈ global_params)
   then match opts !! k with
        | Some v => Some v
        | None => fst (docOptsFor ∅ (get_group (requestsById requests) (f_id f))) !! k
        end
   else fst (docOptsFor ∅ (get_group (requestsById requests) (f_id f))) !! k) /\
  f_opts f !! "atts_since" =
  fst (docOptsFor ∅ (get_group (requestsById requests) (f_id f))) !! "atts_since".
Proof.
  intros Hin. apply list_elem_of_In in Hin.
  destruct (issued_fetch evs f Hin) as [_ Heq].
  assert (f_opts f = fst (docOptsFor opts (get_group (requestsById requests) (f_id f))))
    as ->.
  { rewrite Heq at 1. unfold fetch_for. destruct (docOptsFor _ _). reflexivity. }
  split; [apply docOptsFor_lookup|].
  rewrite docOptsFor_lookup. reflexivity.
Qed.

(** For a non-empty list of requests [callback] is called at most once,
    only when every id is resolved; and once no fetch is in flight it has
    been called, unless a stored result was not an array. *)
Lemma bulkGet_finishes_once (evs : list event) :
  0 < n ->
  let st := run opts requests evs in
  length (finished st) <= 1 /\
  (finished st <> [] -> numDone st = n /\ inflight st = []) /\
  (inflight st = [] ->
   numDone st = n /\
   ((exists results, finished st = [results]) \/
    collapseResults (perDocResults st) = None)).
Proof.
  intros Hpos st. destruct (run_inv evs) as [Hinv Hlive]. fold st in Hinv, Hlive.
  assert (numDone st = n -> inflight st = []) as Hquiet.
  { intros Hfull. destruct (inflight st) as [|f l] eqn:Hfl; [reflexivity|].
    assert (f ∈ inflight st) as Hf by (rewrite Hfl; left).
    destruct (inv_inflight_slot st f Hinv Hf) as (_ & _ & _ & Hslot).
    apply filled_lt in Hslot.
    rewrite <- (inv_done _ _ _ Hinv), (inv_len _ _ _ Hinv) in Hslot. lia. }
  split; [| split].
  - destruct (finished st) as [|results l] eqn:Hfin; [cbn; lia|].
    destruct (inv_once _ _ _ Hinv results) as (Hone & _); [rewrite Hfin; left; reflexivity|].
    rewrite Hfin in Hone. injection Hone as ->. cbn. lia.
  - intros Hne. destruct (finished st) as [|results l] eqn:Hfin; [contradiction|].
    destruct (inv_once _ _ _ Hinv results) as (_ & Hfull & _);
      [rewrite Hfin; left; reflexivity|].
    auto.
  - intros Hnil.
    assert (i st = n) as Hi.
    { pose proof (inv_i _ _ _ Hinv).
      destruct (Nat.eq_dec (i st) n); [assumption|].
      exfalso. apply Hlive; [lia | assumption]. }
    assert (numDone st = n) as Hfull.
    { rewrite (inv_done _ _ _ Hinv), <- (inv_len _ _ _ Hinv).
      pose proof (filled_le (perDocResults st)) as Hle.
      destruct (Nat.eq_dec (length (omap id (perDocResults st)))
                           (length (perDocResults st))) as [|Hne]; [assumption|].
      exfalso.
      assert (exists k, perDocResults st !! k = Some None) as [k Hk].
      { clear -Hne Hle. induction (perDocResults st) as [|[pd|] l IH]; cbn in *.
        - lia.
        - destruct IH as [k Hk]; [lia | lia |]. exists (S k). exact Hk.
        - exists 0. reflexivity. }
      pose proof (lookup_lt_Some _ _ _ Hk) as Hlt.
      rewrite (inv_len _ _ _ Hinv) in Hlt.
      pose proof (inv_pending _ _ _ Hinv k ltac:(lia) Hk) as Hp.
      rewrite Hnil in Hp. apply elem_of_nil in Hp. exact Hp. }
    split; [assumption|].
    destruct (finished st) as [|results l] eqn:Hfin.
    + right. apply (inv_fired _ _ _ Hinv); assumption.
    + left. exists results.
      destruct (inv_once _ _ _ Hinv results) as (Hone & _);
        [rewrite Hfin; left; reflexivity|].
      rewrite <- Hfin. exact Hone.
Qed.

End BulkGetInvariant.

Section BulkGetSamples.
Import JS BulkGet.

Lemma bulkGet_results_count_witness :
  In two_revs_results (finished (run ∅ two_revs_and_one two_revs_answers)) /\
  forallb (answers_each_request ∅ two_revs_and_one) two_revs_answers = true /\
  length two_revs_results = length two_revs_and_one.
Proof.
  assert (In two_revs_results (finished (run ∅ two_revs_and_one two_revs_answers)))
    as Hin by (vm_compute; left; reflexivity).
  assert (forallb (answers_each_request ∅ two_revs_and_one) two_revs_answers = true)
    as Hconf by (vm_compute; reflexivity).
  split; [exact Hin | split; [exact Hconf |]].
  exact (proj2 (proj2 (bulkGet_results_count ∅ two_revs_and_one two_revs_answers
                         two_revs_results Hin)) Hconf).
Defined.

(** C2 as stated fails: two requests for "doc1" without a revision are
    served by one fetch of the winning revision, and [results] has one
    entry for the two requests. *)
Lemma bulkGet_results_count_counterexample :
  exists results,
    finished (run ∅ twice_doc1 [Complete 0 (GetOk (VStr "winner"))]) = [results] /\
    length results = 1 /\ length twice_doc1 = 2.
Proof.
  eexists. split; [vm_compute; reflexivity | split; reflexivity].
Qed.

Lemma bulkGet_global_options_witness :
  exists f,
    In f (issued (run global_atts_since [plain_request "doc1"] [])) /\
    f_opts f !! "revs" = Some (VBool true).
Proof.
  exists (fetch_for global_atts_since [plain_request "doc1"] 0 "doc1").
  assert (In (fetch_for global_atts_since [plain_request "doc1"] 0 "doc1")
             (issued (run global_atts_since [plain_request "doc1"] []))) as Hin
    by (left; reflexivity).
  split; [exact Hin|].
  rewrite (proj1 (bulkGet_global_options global_atts_since [plain_request "doc1"] []
                    _ "revs" Hin)).
  reflexivity.
Defined.

(** C9 as stated fails: a global [atts_since] is not among the options of
    the fetch, while the global [revs] is. *)
Lemma bulkGet_global_options_counterexample :
  exists f,
    issued (run global_atts_since [plain_request "doc1"] []) = [f] /\
    global_atts_since !! "atts_since" = Some (VArr [VStr "1-a"]) /\
    f_opts f !! "atts_since" = None /\
    f_opts f !! "revs" = Some (VBool true).
Proof.
  eexists. split; [reflexivity|]. repeat split; vm_compute; reflexivity.
Qed.

End BulkGetSamples.

(** * Further properties *)

(** ** Backoff *)
Section BackoffMore.
Import Binary64 Backoff Retry.
Local Open Scope Z_scope.

Lemma defaultBackOff_usable (min : jsnum) (ratio : Z) :
  usable_min min -> unit_double ratio ->
  0 <= defaultBackOff min ratio <= 600000.
Proof.
  intros Hmin [Hr Hd]. destruct min as [|M].
  - change (defaultBackOff Undefined ratio) with (defaultBackOff (Num 0) ratio).
    apply backoff_capped_below_wrap; [split; [lia | reflexivity] | assumption | assumption].
  - apply backoff_capped_below_wrap; assumption.
Qed.

(** In a retry loop that hands each delay back as the next minimum, every
    delay is within [0, 600000], and a delay between 1 and 300000 is
    followed by one between itself and its double, a larger one by one of at
    least 300000: the delays do not shrink once they are positive. *)
Theorem backoff_chain_capped (min : jsnum) (ratios : list Z) :
  usable_min min -> Forall unit_double ratios ->
  Forall (fun d => 0 <= d <= 600000) (backoff_chain min ratios) /\
  (forall (k : nat) (d d' : Z),
     backoff_chain min ratios !! k = Some d ->
     backoff_chain min ratios !! S k = Some d' ->
     (1 <= d <= 300000 -> d <= d' <= 2 * d) /\
     (300000 < d -> 300000 <= d' <= 600000)).
Proof.
  intros Hmin Hall. revert min Hmin.
  induction Hall as [|r rest Hr Hrest IH]; intros min Hmin.
  - split; [constructor | intros k d d' Hk; destruct k; discriminate].
  - pose proof (defaultBackOff_usable min r Hmin Hr) as Hd.
    assert (usable_min (Num (defaultBackOff min r))) as Hnext.
    { cbn. change (2 ^ 30) with 1073741824. lia. }
    destruct (IH _ Hnext) as [IHall IHadj].
    cbn [backoff_chain]. split; [constructor; assumption|].
    intros [|k] d d' Hk Hk'.
    + cbn in Hk. injection Hk as <-.
      destruct rest as [|r' rest']; [discriminate|].
      cbn in Hk'. injection Hk' as <-.
      apply Forall_cons in Hrest as [[Hr'1 Hr'2] _].
      set (d := defaultBackOff min r) in *.
      split; intros Hrange.
      * rewrite defaultBackOff_truthy by lia.
        apply randomNumber_min_only;
          [change (2 ^ 30) with 1073741824; lia | auto | assumption | lia].
      * rewrite defaultBackOff_truthy by lia.
        apply randomNumber_min_only;
          [change (2 ^ 30) with 1073741824; lia | auto | assumption | lia].
    + apply (IHadj k d d' Hk Hk').
Qed.

Lemma backoff_chain_capped_witness :
  Forall (fun d => 0 <= d <= 600000)
    (backoff_chain Undefined [2 ^ 1073; 0; pred_one; 2 ^ 1073]).
Proof.
  apply (backoff_chain_capped Undefined [2 ^ 1073; 0; pred_one; 2 ^ 1073]).
  - exact I.
  - repeat constructor; vm_compute; congruence.
Defined.

(** With a maximum above the minimum, [randomNumber] draws from the window
    that ends one past the maximum; the sum [range * ratio + min] can round
    up to that end, so the result lies in [min, max + 1], and [max + 1] is
    reached. A maximum that is not above the minimum is ignored. *)
Theorem randomNumber_explicit_window (a b ratio : Z) :
  0 <= a < b -> b < 600000 -> 0 <= ratio < scale ->
  a <= randomNumber (Num a) (Num b) ratio <= b + 1 /\
  randomNumber (Num 1000) (Num 1999) pred_one = 2000 /\
  (forall m, m <= a ->
     randomNumber (Num a) (Num m) ratio = randomNumber (Num a) Undefined ratio).
Proof.
  intros Hab Hb Hr. split; [| split].
  - rewrite randomNumber_eq.
    assert (window (Num a) (Num b) = (a, b + 1)) as ->.
    { unfold window. cbn [parseInt10].
      assert (or_default (Some a) 0 = a) as ->.
      { unfold or_default. destruct (a =? 0) eqn:E; [lia | reflexivity]. }
      destruct (b <=? a) eqn:E1; [lia|].
      unfold maxTimeout. destruct (600000 <? b + 1) eqn:E2; [lia | reflexivity]. }
    cbn [fst snd]. apply draw_in_window; [lia | | assumption].
    change (2 ^ 31) with 2147483648. lia.
  - vm_compute. reflexivity.
  - intros m Hm. unfold randomNumber. cbn [parseInt10].
    assert (or_default (Some a) 0 = a) as ->.
    { unfold or_default. destruct (a =? 0) eqn:E; [lia | reflexivity]. }
    destruct (m <=? a) eqn:E; [reflexivity | lia].
Qed.

Lemma randomNumber_explicit_window_witness :
  100 <= randomNumber (Num 100) (Num 200) (2 ^ 1073) <= 200 + 1.
Proof.
  apply (randomNumber_explicit_window 100 200 (2 ^ 1073));
    [lia | lia | vm_compute; split; congruence].
Defined.

End BackoffMore.

(** ** The bulk-get shim *)
Section GroupingMore.
Import JS BulkGet.

Lemma get_group_add (r : request) (m : list (string * list request)) (docId : string) :
  get_group (group_add r m) docId =
  get_group m docId ++ (if String.eqb (req_id r) docId then [r] else []).
Proof.
  induction m as [|[k rs] m IH]; cbn.
  - destruct (String.eqb (req_id r) docId); reflexivity.
  - destruct (String.eqb_spec k (req_id r)) as [->|Hne]; cbn.
    + destruct (String.eqb (req_id r) docId); [reflexivity|].
      rewrite app_nil_r. reflexivity.
    + destruct (String.eqb_spec k docId) as [->|Hne']; [| exact IH].
      destruct (String.eqb_spec (req_id r) docId) as [Heq|_];
        [congruence | rewrite app_nil_r; reflexivity].
Qed.

Lemma group_add_keys_decide (r : request) (m : list (string * list request)) :
  map fst (group_add r m) =
  if bool_decide (req_id r ∈ map fst m) then map fst m
  else map fst m ++ [req_id r].
Proof.
  induction m as [|[k rs] m IH]; cbn; [reflexivity|].
  destruct (String.eqb_spec k (req_id r)) as [->|Hne]; cbn.
  - rewrite bool_decide_eq_true_2 by left. reflexivity.
  - rewrite IH. destruct (decide (req_id r ∈ map fst m)) as [Hin | Hnot].
    + rewrite !bool_decide_eq_true_2; [reflexivity | right; assumption | assumption].
    + rewrite !bool_decide_eq_false_2; [reflexivity | | assumption].
      rewrite not_elem_of_cons. split; [congruence | assumption].
Qed.

Lemma requestsById_snoc (requests : list request) (r : request) :
  requestsById (requests ++ [r]) = group_add r (requestsById requests).
Proof. unfold requestsById. rewrite foldl_app. reflexivity. Qed.

Lemma allRequests_snoc (requests : list request) (r : request) :
  allRequests (requests ++ [r]) =
  if bool_decide (req_id r ∈ allRequests requests) then allRequests requests
  else allRequests requests ++ [req_id r].
Proof. unfold allRequests. rewrite requestsById_snoc. apply group_add_keys_decide. Qed.

(** The group of an id holds exactly the requests for that id, in the
    order in which the caller gave them; the ids are listed once each, in
    the order of their first request, and an id is listed exactly when some
    request carries it. *)
Theorem requestsById_groups (requests : list request) (docId : string) :
  get_group (requestsById requests) docId
    = List.filter (fun r => String.eqb (req_id r) docId) requests /\
  NoDup (allRequests requests) /\
  (docId ∈ allRequests requests <-> exists r, r ∈ requests /\ req_id r = docId) /\
  (forall r, allRequests (requests ++ [r]) =
     if bool_decide (req_id r ∈ allRequests requests) then allRequests requests
     else allRequests requests ++ [req_id r]).
Proof.
  split; [| split; [apply requestsById_NoDup | split; [| apply allRequests_snoc]]].
  - induction requests as [|r requests IH] using rev_ind; [reflexivity|].
    rewrite requestsById_snoc, get_group_add, IH, List.filter_app. reflexivity.
  - induction requests as [|r requests IH] using rev_ind.
    + split; [intros H; apply elem_of_nil in H; contradiction|].
      intros (r & Hr & _). apply elem_of_nil in Hr. contradiction.
    + assert (docId ∈ allRequests (requests ++ [r]) <->
              docId ∈ allRequests requests \/ docId = req_id r) as ->.
      { rewrite allRequests_snoc.
        destruct (decide (req_id r ∈ allRequests requests)) as [Hin | Hnot].
        - rewrite bool_decide_eq_true_2 by assumption.
          split; [auto | intros [H | ->]; assumption].
        - rewrite bool_decide_eq_false_2 by assumption.
          rewrite elem_of_app, list_elem_of_singleton. reflexivity. }
      rewrite IH. split.
      * intros [(r' & Hr' & Hid) | ->].
        -- exists r'. split; [apply elem_of_app; left; assumption | assumption].
        -- exists r. split; [apply elem_of_app; right; left | reflexivity].
      * intros (r' & Hr' & Hid). apply elem_of_app in Hr' as [Hr' | Hr'].
        -- left. eauto.
        -- apply list_elem_of_singleton in Hr'. subst r'. right. congruence.
Qed.

End GroupingMore.

Section BulkGetMore.
Import JS BulkGet.
Variable opts : gmap string value.
Variable requests : list request.

Local Abbreviation all := (allRequests requests).
Local Abbreviation n := (numDocs requests).

Lemma fetches_from_id (off : nat) (batch : list string) :
  map f_id (fetches_from opts requests off batch) = batch.
Proof.
  revert off. induction batch as [|docId batch IH]; intros off; cbn; [reflexivity|].
  rewrite fetch_for_id, IH. reflexivity.
Qed.

(** Every distinct id is fetched at most once, in the order of its first
    request: the fetches made so far are those of the first [i] ids; and by
    the time [callback] is called every id has been fetched exactly once. *)
Theorem bulkGet_fetches_each_id_once (evs : list event) :
  let st := run opts requests evs in
  map f_id (issued st) = take (i st) all /\
  map f_idx (issued st) = seq 0 (i st) /\
  NoDup (map f_id (issued st)) /\
  (finished st <> [] -> map f_id (issued st) = all).
Proof.
  intros st. destruct (run_inv opts requests evs) as [Hinv _]. fold st in Hinv.
  pose proof (inv_i _ _ _ Hinv) as Hi.
  assert (map f_id (issued st) = take (i st) all) as Hids.
  { rewrite (inv_issued _ _ _ Hinv). apply fetches_from_id. }
  split; [exact Hids | split; [| split]].
  - rewrite (inv_issued _ _ _ Hinv), fetches_from_idx, length_take.
    rewrite numDocs_all. f_equal. lia.
  - rewrite Hids. eapply sublist_NoDup; [apply requestsById_NoDup | apply sublist_take].
  - intros Hne. rewrite Hids.
    destruct (finished st) as [|results l] eqn:Hfin; [contradiction|].
    destruct (inv_once _ _ _ Hinv results) as (_ & Hfull & _);
      [rewrite Hfin; left; reflexivity|].
    rewrite (inv_full opts requests st Hinv Hfull). apply take_ge.
    rewrite numDocs_all. lia.
Qed.

Lemma take_fetch_length (idx : nat) (l : list fetch) (f : fetch) (others : list fetch) :
  take_fetch idx l = Some (f, others) -> length l = S (length others).
Proof.
  intros H. destruct (take_fetch_perm _ _ _ _ H) as [_ Hperm].
  rewrite Hperm. reflexivity.
Qed.

Lemma fetches_from_length (off : nat) (batch : list string) :
  length (fetches_from opts requests off batch) = length batch.
Proof. rewrite <- (length_map f_idx), fetches_from_idx. apply length_seq. Qed.

Lemma nextBatch_counts (st : state) :
  i st <= n ->
  length (inflight (nextBatch opts requests st))
    = length (inflight st) + (i (nextBatch opts requests st) - i st) /\
  i st <= i (nextBatch opts requests st) <= i st + MAX_NUM_CONCURRENT_REQUESTS /\
  numDone (nextBatch opts requests st) = numDone st.
Proof.
  intros Hi. rewrite nextBatch_spec by assumption.
  cbn [i numDone perDocResults inflight issued finished].
  rewrite length_app, fetches_from_length, next_batch_length by assumption.
  unfold next_upTo, MAX_NUM_CONCURRENT_REQUESTS. lia.
Qed.

(** The window that the shim keeps: the fetches in flight and the answered
    ones add up to the ids started, and at most six ids are started per
    answer on top of the first six. *)
Lemma run_window (evs : list event) :
  let st := run opts requests evs in
  length (inflight st) + numDone st = i st /\
  i st <= MAX_NUM_CONCURRENT_REQUESTS * S (numDone st).
Proof.
  induction evs as [|ev evs IH] using rev_ind.
  - unfold run. cbn [foldl]. unfold bulkGet.
    destruct (nextBatch_counts (State 0 0 (replicate n None) [] [] []))
      as (H1 & H2 & H3); [cbn; lia|].
    cbn [i numDone perDocResults inflight issued finished length] in *.
    unfold MAX_NUM_CONCURRENT_REQUESTS in *. lia.
  - rewrite run_snoc. cbn zeta in *.
    destruct (run_inv opts requests evs) as [Hinv _].
    set (st := run opts requests evs) in *. destruct IH as [IH1 IH2].
    destruct ev as [idx resp]. cbn [step].
    destruct (take_fetch idx (inflight st)) as [[f others]|] eqn:Htake; [| auto].
    pose proof (take_fetch_length _ _ _ _ Htake) as Hlen.
    pose proof (inv_i _ _ _ Hinv) as Hi.
    unfold gotResult.
    cbn [i numDone perDocResults inflight issued finished].
    unfold MAX_NUM_CONCURRENT_REQUESTS in *.
    destruct (S (numDone st) =? n); [destruct (collapseResults _) |].
    + match goal with |- context [nextBatch opts requests ?s] =>
        destruct (nextBatch_counts s) as (H1 & H2 & H3); [exact Hi|] end.
      cbn [i numDone perDocResults inflight issued finished] in *.
      unfold MAX_NUM_CONCURRENT_REQUESTS in *. lia.
    + cbn [i numDone perDocResults inflight issued finished]. lia.
    + match goal with |- context [nextBatch opts requests ?s] =>
        destruct (nextBatch_counts s) as (H1 & H2 & H3); [exact Hi|] end.
      cbn [i numDone perDocResults inflight issued finished] in *.
      unfold MAX_NUM_CONCURRENT_REQUESTS in *. lia.
Qed.

(** The number of fetches in flight is at most [6 + 5 * numDone] and at
    most the number of ids not yet answered; so it stays within
    [MAX_NUM_CONCURRENT_REQUESTS] before the first answer, and throughout
    when there are at most seven distinct ids. *)
Theorem bulkGet_in_flight_bound (evs : list event) :
  let st := run opts requests evs in
  length (inflight st) <= MAX_NUM_CONCURRENT_REQUESTS + 5 * numDone st /\
  length (inflight st) + numDone st <= n /\
  (numDone st = 0 -> length (inflight st) <= MAX_NUM_CONCURRENT_REQUESTS) /\
  (n <= 7 -> length (inflight st) <= MAX_NUM_CONCURRENT_REQUESTS).
Proof.
  intros st. destruct (run_window evs) as [H1 H2]. fold st in H1, H2.
  destruct (run_inv opts requests evs) as [Hinv _]. fold st in Hinv.
  pose proof (inv_i _ _ _ Hinv) as Hi.
  unfold MAX_NUM_CONCURRENT_REQUESTS in *.
  split; [lia | split; [lia | split; intros; lia]].
Qed.

End BulkGetMore.

Section BulkGetFailures.
Import JS BulkGet BulkGetAnswers.
Variable opts : gmap string value.
Variable requests : list request.

Local Abbreviation all := (allRequests requests).
Local Abbreviation n := (numDocs requests).

Lemma bulkGet_finishes_once_witness :
  length (finished (run ∅ two_revs_and_one two_revs_answers)) <= 1.
Proof.
  apply (bulkGet_finishes_once ∅ two_revs_and_one two_revs_answers).
  vm_compute. lia.
Defined.

(** Once no fetch is in flight, every id has been answered, and [callback]
    has been called unless collapsing the slots threw. *)
Lemma run_quiescent (evs : list event) :
  0 < n -> inflight (run opts requests evs) = [] ->
  numDone (run opts requests evs) = n /\
  (finished (run opts requests evs) = [] ->
   collapseResults (perDocResults (run opts requests evs)) = None).
Proof.
  intros Hpos Hnil. destruct (run_inv opts requests evs) as [Hinv Hlive].
  set (st := run opts requests evs) in *.
  assert (i st = n) as Hi.
  { pose proof (inv_i _ _ _ Hinv).
    destruct (Nat.eq_dec (i st) n); [assumption|].
    exfalso. apply Hlive; [lia | assumption]. }
  assert (numDone st = n) as Hfull.
  { rewrite (inv_done _ _ _ Hinv), <- (inv_len _ _ _ Hinv).
    pose proof (filled_le (perDocResults st)) as Hle.
    destruct (Nat.eq_dec (length (omap id (perDocResults st)))
                         (length (perDocResults st))) as [|Hne]; [assumption|].
    exfalso.
    assert (exists k, perDocResults st !! k = Some None) as [k Hk].
    { clear -Hne Hle. induction (perDocResults st) as [|[pd|] l IH]; cbn in *.
      - lia.
      - destruct IH as [k Hk]; [lia | lia |]. exists (S k). exact Hk.
      - exists 0. reflexivity. }
    pose proof (lookup_lt_Some _ _ _ Hk) as Hlt.
    rewrite (inv_len _ _ _ Hinv) in Hlt.
    pose proof (inv_pending _ _ _ Hinv k ltac:(lia) Hk) as Hp.
    rewrite Hnil in Hp. apply elem_of_nil in Hp. exact Hp. }
  split; [assumption|]. intros Hfin. apply (inv_fired _ _ _ Hinv); assumption.
Qed.

Lemma collapseResults_arrays (slots : list (option per_doc)) :
  Forall (fun pd => exists infos, pd_docs pd = VArr infos) (omap id slots) ->
  exists results, collapseResults slots = Some results.
Proof.
  induction slots as [|[pd|] slots IH]; cbn; intros Hall.
  - eauto.
  - apply Forall_cons in Hall as [[infos Hdocs] Hall].
    destruct (IH Hall) as [more ->]. rewrite Hdocs. eauto.
  - auto.
Qed.

Lemma explode_failures (pds : list per_doc) :
  Forall (fun pd => exists err, pd_docs pd = VArr [VObj {[ "error" := err ]}]) pds ->
  map e_id (flat_map explode pds) = map pd_id pds /\
  Forall is_error_entry (flat_map explode pds).
Proof.
  induction 1 as [|pd pds [err Hdocs] _ [IH1 IH2]]; cbn; [split; constructor|].
  unfold explode at 1 3. rewrite Hdocs. cbn. rewrite IH1. split; [reflexivity|].
  constructor; [exists err; reflexivity | exact IH2].
Qed.

(** Failures do not abort the batch: when the store fails every fetch,
    [callback] has been called exactly once by the time no fetch is in
    flight, with one entry per distinct id, in the order of the ids, each
    holding the error of its fetch. *)
Theorem bulkGet_all_failures (evs : list event) :
  0 < n -> forallb is_failure evs = true ->
  inflight (run opts requests evs) = [] ->
  exists results,
    finished (run opts requests evs) = [results] /\
    map e_id results = all /\
    Forall is_error_entry results.
Proof.
  intros Hpos Hfail Hnil.
  destruct (run_inv opts requests evs) as [Hinv _].
  destruct (run_quiescent evs Hpos Hnil) as [Hfull Hfired].
  destruct (full_slots opts requests _ Hinv Hfull) as [Hids Hslots].
  assert (Forall (fun pd => exists err, pd_docs pd = VArr [VObj {[ "error" := err ]}])
            (omap id (perDocResults (run opts requests evs)))) as Herrs.
  { apply Forall_forall. intros pd Hpd. destruct (Hslots pd Hpd) as [k Hk].
    destruct (run_slot_origin opts requests evs k pd Hk) as (resp & Hev & Hdocs).
    rewrite forallb_forall in Hfail. specialize (Hfail _ Hev). cbn in Hfail.
    destruct resp as [err|res]; [| discriminate]. exists err. exact Hdocs. }
  destruct (collapseResults_arrays (perDocResults (run opts requests evs)))
    as [results Hc].
  { eapply Forall_impl; [exact Herrs|]. cbn. intros pd [err ->]. eauto. }
  destruct (finished (run opts requests evs)) as [|results' l] eqn:Hfin.
  { rewrite Hfired in Hc by reflexivity. discriminate. }
  destruct (inv_once _ _ _ Hinv results') as (Hone & _ & Hc');
    [rewrite Hfin; left; reflexivity|].
  rewrite Hfin in Hone. rewrite Hc in Hc'. injection Hc' as <-.
  exists results. split; [exact Hone|].
  apply collapseResults_explode in Hc. rewrite Hc.
  destruct (explode_failures _ Herrs) as [H1 H2].
  split; [rewrite H1; exact Hids | exact H2].
Qed.

End BulkGetFailures.

Section BulkGetFailuresSample.
Import JS BulkGet BulkGetAnswers.

Lemma bulkGet_all_failures_witness :
  exists results,
    finished (run ∅ two_revs_and_one both_fail) = [results] /\
    map e_id results = ["doc1"; "doc2"] /\
    Forall is_error_entry results.
Proof.
  apply (bulkGet_all_failures ∅ two_revs_and_one both_fail);
    [vm_compute; lia | reflexivity | reflexivity].
Defined.

End BulkGetFailuresSample.

(** ** [pick] *)
Section PickMore.
Import JS.

Lemma pick_lookup (obj : gmap string value) (arr : list string) (k : string) :
  pick obj arr !! k = if bool_decide (k ∈ arr) then obj !! k else None.
Proof.
  change (pick obj arr) with (BulkGet.with_globals obj ∅ arr).
  rewrite with_globals_lookup, lookup_empty.
  destruct (bool_decide (k ∈ arr)); [destruct (obj !! k) |]; reflexivity.
Qed.


End PickMore.

(** ** The change-feed listener *)
Section ChangesMore.
Import JS Changes ChangesCounts.

Local Ltac fields :=
  cbn [listed inprogress opts upstream calls immediates delivered negb length
       Nat.add Nat.pred].



Lemma cancelled_step (st : state) (ev : event) :
  not_cancelled (opts st) = false ->
  not_cancelled (opts (step st ev)) = false /\ delivered (step st ev) = delivered st.
Proof.
  intros Hc. destruct ev; cbn [step].
  - destruct (listed st); [| auto]. unfold eventFunction.
    destruct (negb (listed st)), (inprogress st); fields; auto.
  - destruct (immediates st); [auto|]. unfold eventFunction. fields.
    destruct (negb (listed st)), (inprogress st); fields; auto.
  - unfold onChangeEvent. rewrite Hc, andb_false_r. auto.
  - destruct (upstream st); cbn; auto.
  - destruct (upstream st); cbn; auto.
  - cbn. auto.
  - cbn. split; [| reflexivity]. unfold not_cancelled.
    rewrite lookup_insert_eq. reflexivity.
Qed.

(** Once the consumer has set [opts.cancelled], no change is delivered any
    more, not even by an upstream call that is still in flight. *)
Theorem cancelled_never_delivers (opts0 : gmap string value) (evs evs' : list event) :
  delivered (run opts0 (evs ++ Cancel :: evs')) = delivered (run opts0 evs).
Proof.
  unfold run. rewrite foldl_app. cbn [foldl].
  set (st := foldl step (addListener opts0) evs).
  assert (not_cancelled (opts (step st Cancel)) = false /\
          delivered (step st Cancel) = delivered st) as Hstart.
  { cbn. split; [| reflexivity]. unfold not_cancelled.
    rewrite lookup_insert_eq. reflexivity. }
  revert Hstart. generalize (step st Cancel). clear.
  induction evs' as [|ev evs' IH]; intros st' [Hl Hc]; cbn [foldl]; [auto|].
  destruct (cancelled_step st' ev Hl) as [Hl' Hc'].
  apply IH. split; [assumption | congruence].
Qed.

Lemma count_snoc (p : event -> bool) (evs : list event) (ev : event) :
  count p (evs ++ [ev]) = count p evs + (if p ev then 1 else 0).
Proof.
  unfold count. rewrite List.filter_app, length_app. cbn.
  destruct (p ev); reflexivity.
Qed.

Lemma run_snoc_changes (opts0 : gmap string value) (evs : list event) (ev : event) :
  run opts0 (evs ++ [ev]) = step (run opts0 evs) ev.
Proof. unfold run. rewrite foldl_app. reflexivity. Qed.

Lemma debt_step (st : state) (ev : event) :
  length (calls (step st ev)) + immediates (step st ev) + waiting_debt (step st ev)
  <= length (calls st) + immediates st + waiting_debt st
     + (if is_emit ev then 1 else 0).
Proof.
  unfold waiting_debt. destruct ev; cbn [step is_emit].
  - destruct (listed st) eqn:Hl; [| lia]. unfold eventFunction. rewrite Hl.
    destruct (inprogress st); fields; rewrite ?length_app; fields; lia.
  - destruct (immediates st) as [|q] eqn:Hq; [lia|]. unfold eventFunction. fields.
    destruct (negb (listed st)), (inprogress st); fields; rewrite ?length_app;
      fields; lia.
  - unfold onChangeEvent. destruct (gt_value _ _ && not_cancelled _); cbn; lia.
  - destruct (upstream st); [lia|]. cbn. destruct (inprogress st); lia.
  - destruct (upstream st); [lia|]. cbn. destruct (inprogress st); lia.
  - cbn. lia.
  - cbn. lia.
Qed.

Lemma ended_step (st : state) (ev : event) (c : nat) :
  length (calls st) <= upstream st + c ->
  length (calls (step st ev))
  <= upstream (step st ev) + c + (if is_end ev then 1 else 0).
Proof.
  intros H. destruct ev; cbn [step is_end].
  - destruct (listed st) eqn:Hl; [| lia]. unfold eventFunction. rewrite Hl.
    destruct (inprogress st); fields; rewrite ?length_app; fields; lia.
  - destruct (immediates st) as [|q] eqn:Hq; [lia|]. unfold eventFunction. fields.
    destruct (negb (listed st)), (inprogress st); fields; rewrite ?length_app;
      fields; lia.
  - unfold onChangeEvent. destruct (gt_value _ _ && not_cancelled _); cbn; lia.
  - destruct (upstream st) eqn:Hu; [lia|]. cbn. lia.
  - destruct (upstream st) eqn:Hu; [lia|]. cbn. lia.
  - cbn. lia.
  - cbn. lia.
Qed.

(** A listener never makes more upstream calls than it has received
    triggers from the emitter, and never more than one more than the number
    of upstream calls that have ended: triggers that arrive during a run are
    merged, and calls do not overlap. *)
Theorem changes_call_count (opts0 : gmap string value) (evs : list event) :
  length (calls (run opts0 evs)) <= count is_emit evs /\
  length (calls (run opts0 evs)) <= S (count is_end evs).
Proof.
  assert (length (calls (run opts0 evs)) + immediates (run opts0 evs)
          + waiting_debt (run opts0 evs) <= count is_emit evs /\
          length (calls (run opts0 evs)) <= upstream (run opts0 evs) + count is_end evs)
    as [H1 H2].
  { induction evs as [|ev evs [IH1 IH2]] using rev_ind; [cbn; lia|].
    rewrite run_snoc_changes, !count_snoc.
    pose proof (debt_step (run opts0 evs) ev).
    pose proof (ended_step (run opts0 evs) ev _ IH2). lia. }
  pose proof (single_flight_run opts0 evs) as Hsf. unfold single_flight in Hsf.
  split; [lia|]. destruct (inprogress (run opts0 evs)); lia.
Qed.

(** Every upstream call is made with the recognized options only, as the
    subscription's options are at that moment: a call started by a trigger
    carries the current watermark [since], and no call ever carries a name
    outside the list, such as [cancelled] or [onChange]. *)
Theorem changes_forwarded_options (opts0 : gmap string value) (evs : list event) :
  (forall o k, In o (calls (run opts0 evs)) ->
     (k ∉ changes_params) -> o !! k = None) /\
  (forall ev, ev = Emit \/ ev = Immediate ->
     calls (step (run opts0 evs) ev) = calls (run opts0 evs) \/
     exists o, calls (step (run opts0 evs) ev) = calls (run opts0 evs) ++ [o] /\
       o !! "since" = opts (run opts0 evs) !! "since" /\
       forall k, o !! k = if bool_decide (k ∈ changes_params)
                          then opts (run opts0 evs) !! k else None).
Proof.
  assert (forall st, calls (eventFunction st) = calls st \/
            calls (eventFunction st) = calls st ++ [pick (opts st) changes_params])
    as Hef.
  { intros st. unfold eventFunction.
    destruct (negb (listed st)), (inprogress st); fields; auto. }
  assert (forall st ev, calls (step st ev) = calls st \/
            exists o, calls (step st ev) = calls st ++ [o] /\
                      o = pick (opts st) changes_params) as Hstep.
  { intros st ev. destruct ev; cbn [step].
    - destruct (listed st); [| auto]. destruct (Hef st) as [-> | ->]; eauto.
    - destruct (immediates st) as [|q]; [auto|].
      match goal with |- context [eventFunction ?s] =>
        destruct (Hef s) as [-> | ->] end; fields; eauto.
    - unfold onChangeEvent. destruct (gt_value _ _ && not_cancelled _); auto.
    - destruct (upstream st); auto.
    - destruct (upstream st); auto.
    - auto.
    - auto. }
  split.
  - induction evs as [|ev evs IH] using rev_ind; [intros o k []|].
    intros o k Hin Hk. rewrite run_snoc_changes in Hin.
    destruct (Hstep (run opts0 evs) ev) as [Heq | (o' & Heq & ->)];
      rewrite Heq in Hin; [eauto|].
    apply in_app_or in Hin as [Hin | [<- | []]]; [eauto|].
    rewrite pick_lookup. rewrite bool_decide_eq_false_2 by assumption. reflexivity.
  - intros ev _. destruct (Hstep (run opts0 evs) ev) as [Heq | (o & Heq & ->)];
      [left; exact Heq | right].
    eexists. split; [exact Heq | split].
    + rewrite pick_lookup. reflexivity.
    + intros k. apply pick_lookup.
Qed.

End ChangesMore.

(** ** The registry of listeners *)
Section RegistryMore.
Import JS Registry.





End RegistryMore.

Section RegistryInvariant.
Import JS Registry.

Lemma remove_first_split (x : string * handler) (l : list (string * handler)) :
  ((x ∉ l) /\ remove_first x l = l) \/
  exists l1 l2, l = l1 ++ x :: l2 /\ remove_first x l = l1 ++ l2.
Proof.
  induction l as [|y l IH]; cbn.
  - left. split; [apply not_elem_of_nil | reflexivity].
  - destruct (decide (x = y)) as [<- | Hne].
    + right. exists [], l. split; reflexivity.
    + destruct IH as [[Hnot ->] | (l1 & l2 & -> & ->)].
      * left. split; [| reflexivity]. rewrite not_elem_of_cons. auto.
      * right. exists (y :: l1), l2. split; reflexivity.
Qed.

Lemma emitter_remove_split (x : string * handler) (l : list (string * handler)) :
  ((x ∉ l) /\ emitter_remove x l = l) \/
  exists l1 l2, l = l1 ++ x :: l2 /\ emitter_remove x l = l1 ++ l2.
Proof.
  unfold emitter_remove.
  destruct (remove_first_split x (reverse l)) as [[Hnot ->] | (l1 & l2 & Hl & ->)].
  - left. split; [| apply reverse_involutive]. rewrite elem_of_reverse in Hnot. exact Hnot.
  - right. exists (reverse l2), (reverse l1).
    apply (f_equal reverse) in Hl. rewrite reverse_involutive in Hl.
    rewrite Hl, !reverse_app, reverse_cons, <- app_assoc. cbn. split; reflexivity.
Qed.

Lemma wf_empty : wf empty /\ no_leak empty.
Proof.
  split; [constructor; cbn |].
  - intros c h H. apply elem_of_nil in H. contradiction.
  - intros id h H. rewrite lookup_empty in H. discriminate.
  - constructor.
  - intros c h H. apply elem_of_nil in H. contradiction.
Qed.

Lemma wf_addListener (dbName id : string) (r : registry) :
  wf r -> wf (addListener dbName id r) /\
          (no_leak r -> no_leak (addListener dbName id r)).
Proof.
  intros [Hfresh Hatt Honce]. unfold addListener.
  destruct (_listeners r !! id) eqn:Hid; [split; [constructor; assumption | auto]|].
  split; [constructor; cbn [_listeners attached fresh] |].
  - intros c h Hin. apply elem_of_app in Hin as [Hin | Hin].
    + specialize (Hfresh c h Hin). lia.
    + apply list_elem_of_singleton in Hin. injection Hin as -> ->. cbn. lia.
  - intros id' h Hl. destruct (decide (id = id')) as [<- | Hne].
    + rewrite lookup_insert_eq in Hl. injection Hl as <-. split; [reflexivity|].
      exists dbName. apply elem_of_app. right. left.
    + rewrite lookup_insert_ne in Hl by assumption.
      destruct (Hatt id' h Hl) as [H1 [c H2]]. split; [assumption|].
      exists c. apply elem_of_app. left. assumption.
  - rewrite map_app. apply NoDup_app. split; [assumption | split; [| apply NoDup_singleton]].
    intros h Hh Hh'. apply list_elem_of_singleton in Hh'. subst h.
    apply list_elem_of_fmap in Hh as ([c h] & Heq & Hin). cbn in Heq. subst h.
    specialize (Hfresh c _ Hin). cbn in Hfresh. lia.
  - intros Hleak c h Hin. cbn [_listeners attached fresh] in *.
    apply elem_of_app in Hin as [Hin | Hin].
    + pose proof (Hleak c h Hin) as Hl.
      rewrite lookup_insert_ne; [assumption|]. intros Heq.
      rewrite <- Heq in Hl.
      assert (Some h = None) as Hc
        by (transitivity (_listeners r !! id); [symmetry; exact Hl | exact Hid]).
      discriminate.
    + apply list_elem_of_singleton in Hin. injection Hin as -> ->. cbn.
      apply lookup_insert_eq.
Qed.

Lemma wf_removeListener (dbName id : string) (r : registry) :
  wf r -> wf (removeListener dbName id r) /\
          (no_leak r -> matched r (Remove dbName id) ->
           no_leak (removeListener dbName id r)).
Proof.
  intros [Hfresh Hatt Honce]. unfold removeListener.
  destruct (_listeners r !! id) as [h|] eqn:Hid; [| split; [constructor; assumption | auto]].
  destruct (Hatt id h Hid) as [Hfst _].
  destruct (emitter_remove_split (dbName, h) (attached r))
    as [[Hnot Heq] | (l1 & l2 & Hl & Heq)].
  - rewrite Heq. split; [constructor; cbn [_listeners attached fresh] |].
    + assumption.
    + intros id' h' Hl'. destruct (decide (id = id')) as [<- | Hne].
      * rewrite lookup_delete_eq in Hl'. discriminate.
      * rewrite lookup_delete_ne in Hl' by assumption. auto.
    + assumption.
    + intros _ Hm. exfalso. apply Hnot. apply (Hm h Hid).
  - rewrite Heq.
    assert (forall p, p ∈ l1 ++ l2 -> p ∈ attached r) as Hsub.
    { intros p Hp. rewrite Hl. apply elem_of_app in Hp as [Hp | Hp];
        apply elem_of_app; [left | right; right]; assumption. }
    assert (NoDup (map snd (l1 ++ l2)) /\ (h ∉ map snd (l1 ++ l2))) as [Hnd Hh].
    { rewrite Hl in Honce. rewrite map_app in Honce. cbn in Honce.
      apply NoDup_app in Honce as (N1 & N2 & N3).
      apply NoDup_cons in N3 as [N3 N4]. rewrite map_app. split.
      - apply NoDup_app. split; [assumption | split; [| assumption]].
        intros x Hx Hx'. apply (N2 x Hx). right. assumption.
      - intros Hin. apply elem_of_app in Hin as [Hin | Hin]; [| contradiction].
        apply (N2 h Hin). left. }
    split; [constructor; cbn [_listeners attached fresh] |].
    + intros c h' Hin. apply (Hfresh c h'). apply Hsub. assumption.
    + intros id' h' Hl'. destruct (decide (id = id')) as [<- | Hne].
      * rewrite lookup_delete_eq in Hl'. discriminate.
      * rewrite lookup_delete_ne in Hl' by assumption.
        destruct (Hatt id' h' Hl') as [H1 [c H2]]. split; [assumption|].
        exists c. rewrite Hl in H2.
        apply elem_of_app in H2 as [H2 | H2]; [apply elem_of_app; left; assumption|].
        apply elem_of_cons in H2 as [H2 | H2]; [| apply elem_of_app; right; assumption].
        injection H2 as _ ->. congruence.
    + exact Hnd.
    + intros Hleak _ c h' Hin. cbn [_listeners attached fresh] in *.
      pose proof (Hleak c h' (Hsub _ Hin)) as Hl'.
      rewrite lookup_delete_ne; [assumption|]. intros Heq'.
      rewrite <- Heq' in Hl'.
      assert (Some h' = Some h) as Hc
        by (transitivity (_listeners r !! id); [symmetry; exact Hl' | exact Hid]).
      injection Hc as Hc. subst h'.
      apply Hh. apply list_elem_of_fmap. exists (c, h). split; [reflexivity | assumption].
Qed.

Lemma wf_run (ops : list op) (r : registry) :
  wf r -> wf (foldl apply_op r ops) /\
          (no_leak r -> well_matched r ops -> no_leak (foldl apply_op r ops)).
Proof.
  revert r. induction ops as [|o ops IH]; intros r Hwf; cbn [foldl well_matched].
  - auto.
  - assert (wf (apply_op r o) /\
            (no_leak r -> matched r o -> no_leak (apply_op r o))) as [Hwf' Hleak'].
    { destruct o as [dbName id | dbName id]; cbn [apply_op].
      - destruct (wf_addListener dbName id r Hwf). auto.
      - apply wf_removeListener. assumption. }
    destruct (IH _ Hwf') as [H1 H2]. split; [assumption|].
    intros Hleak [Hm Hrest]. auto.
Qed.

(** However listeners are added and removed, no function is attached to
    the emitter twice, and every registered id has its function attached,
    so that a notification of its channel reaches it.  If listeners are
    removed from the channel they were added to, every function that a
    notification calls is a registered one: none is left behind. *)
Theorem registry_invariant (ops : list op) :
  let r := foldl apply_op empty ops in
  NoDup (map snd (attached r)) /\
  (forall id h, _listeners r !! id = Some h ->
     fst h = id /\ exists c, In h (triggered c r)) /\
  (well_matched empty ops ->
   forall c, triggered c r = emitted c r /\
             Forall (fun h => _listeners r !! fst h = Some h) (emitted c r)).
Proof.
  intros r. destruct wf_empty as [Hwf0 Hleak0].
  destruct (wf_run ops empty Hwf0) as [[Hfresh Hatt Honce] Hleak]. fold r in Hfresh, Hatt, Honce, Hleak.
  split; [assumption | split].
  - intros id h Hl. destruct (Hatt id h Hl) as [Hfst [c Hin]].
    split; [assumption|]. exists c. unfold triggered, emitted.
    apply List.filter_In. split.
    + apply in_map_iff. exists (c, h). split; [reflexivity|].
      apply List.filter_In. split; [apply list_elem_of_In; assumption|].
      cbn. apply String.eqb_refl.
    + apply bool_decide_eq_true_2. rewrite Hfst. exists h. exact Hl.
  - intros Hm c. specialize (Hleak Hleak0 Hm).
    assert (Forall (fun h => _listeners r !! fst h = Some h) (emitted c r)) as Hall.
    { apply Forall_forall. intros h Hh. unfold emitted in Hh.
      apply list_elem_of_In, in_map_iff in Hh as ([c' h'] & Heq & Hin).
      cbn in Heq. subst h'. apply List.filter_In in Hin as [Hin _].
      apply (Hleak c' h). apply list_elem_of_In. assumption. }
    split; [| exact Hall]. unfold triggered.
    induction Hall as [|h l Hh _ IH]; [reflexivity|]. cbn.
    rewrite bool_decide_eq_true_2 by (exists h; exact Hh). f_equal. exact IH.
Qed.

Lemma registry_invariant_witness :
  triggered "db" (foldl apply_op empty sample_ops)
    = emitted "db" (foldl apply_op empty sample_ops).
Proof.
  apply (proj2 (proj2 (registry_invariant sample_ops))).
  cbn. repeat split; try exact I.
  intros h Hh. vm_compute in Hh. injection Hh as <-. vm_compute. left.
Defined.

End RegistryInvariant.

(** ** The change filter *)
Section FilterMore.
Import JS Filter FilterCases.

Lemma delete_with_doc (change : gmap string value) :
  delete "doc" (with_doc change) = delete "doc" change.
Proof.
  unfold with_doc. destruct (field_truthy change "doc"); [reflexivity|].
  apply delete_insert_eq.
Qed.

(** What [filterChange] does with a change that gets past the filter. *)
Lemma filterChange_accepted (o : options) (change : gmap string value) :
  accepts o change ->
  filterChange o change =
  if negb (field_truthy (fields o) "include_docs") then
    Some (Plain (VBool true), delete "doc" (with_doc change))
  else if negb (field_truthy (fields o) "attachments") then
    match stub_attachments (doc_of change) with
    | Some doc' => Some (Plain (VBool true), <["doc" := doc']> (with_doc change))
    | None => None
    end
  else Some (Plain (VBool true), with_doc change).
Proof.
  unfold accepts, filterChange, doc_of. destruct (filter o) as [f | v].
  - intros (v & Hf & Hv). unfold tryFilter. rewrite Hf, Hv. reflexivity.
  - intros Hv. cbv zeta. destruct (truthy v) eqn:E; [reflexivity|].
    destruct v; try discriminate E; try contradiction;
      cbn [is_object result_truthy]; rewrite E; reflexivity.
Qed.

(** A change that the filter function turns down (it returns a falsy value)
    gets the verdict [false]; a change that gets past the filter gets the
    verdict [true], loses its [doc] when [include_docs] is not set, whatever
    the store supplied, and is left as it is when [include_docs] and
    [attachments] are both set. *)
Theorem filterChange_verdict (o : options) (change : gmap string value) :
  (forall f v, filter o = FilterFunction f ->
     f (doc_of change) (request_of (fields o)) = Returns v -> truthy v = false ->
     filterChange o change = Some (Plain (VBool false), with_doc change)) /\
  (accepts o change -> field_truthy (fields o) "include_docs" = false ->
   filterChange o change = Some (Plain (VBool true), delete "doc" change)) /\
  (accepts o change -> field_truthy (fields o) "include_docs" = true ->
   field_truthy (fields o) "attachments" = true ->
   filterChange o change = Some (Plain (VBool true), with_doc change)).
Proof.
  split; [| split].
  - intros f v Hfilter Hf Hv. unfold filterChange, doc_of in *. rewrite Hfilter.
    unfold tryFilter. rewrite Hf, Hv. reflexivity.
  - intros Hacc Hinc. rewrite filterChange_accepted by assumption.
    rewrite Hinc, delete_with_doc. reflexivity.
  - intros Hacc Hinc Hatt. rewrite filterChange_accepted by assumption.
    rewrite Hinc, Hatt. reflexivity.
Qed.

Lemma filterChange_verdict_witness :
  filterChange (Options (FilterFunction only_posts) ∅) sample_post
    = Some (Plain (VBool true), delete "doc" sample_post).
Proof.
  apply (proj1 (proj2 (filterChange_verdict
                         (Options (FilterFunction only_posts) ∅) sample_post))).
  - exists (VBool true). split; vm_compute; reflexivity.
  - reflexivity.
Defined.




(** A filter that is not a function is ignored: the call does what it does
    without a filter.  The one exception is [null]: with [opts.filter] set
    to [null], [filterChange] returns [null] for every change, which is
    neither of the two verdicts, and keeps the [doc] whatever
    [include_docs] says. *)
Theorem filterChange_not_a_function (fields : gmap string value)
  (change : gmap string value) :
  filterChange (Options (FilterValue VNull) fields) change
    = Some (Plain VNull, with_doc change) /\
  (forall v, v <> VNull ->
     filterChange (Options (FilterValue v) fields) change
     = filterChange (Options (FilterValue VUndefined) fields) change).
Proof.
  split; [reflexivity |]. intros v Hv.
  rewrite (filterChange_accepted (Options (FilterValue v) fields)) by exact Hv.
  rewrite (filterChange_accepted (Options (FilterValue VUndefined) fields))
    by discriminate.
  reflexivity.
Qed.

End FilterMore.

(** ** [clone] *)
Section CloneMore.
Import JS Clone.










End CloneMore.

(** ** [once] and [flatten] *)
Section UtilsMore.
Import JS Utils.

Lemma once_calls_called {A : Type} (calls : list A) :
  once_calls true calls = map (fun _ => Thrown "once called more than once") calls.
Proof. induction calls as [| args rest IH]; cbn; [| rewrite IH]; reflexivity. Qed.

(** Of the calls of a function made by [once], the first applies the
    wrapped function to its arguments and every later one throws; the
    wrapped function is never applied twice. *)
Theorem once_first_call_only {A : Type} (calls : list A) :
  once calls =
  match calls with
  | [] => []
  | args :: rest =>
      Applied args :: map (fun _ => Thrown "once called more than once") rest
  end.
Proof.
  destruct calls as [| args rest]; [reflexivity |].
  unfold once. cbn. rewrite once_calls_called. reflexivity.
Qed.

Lemma flatten_foldl (acc : list value) (arrs : list value) :
  foldl (fun res x => res ++ concat_arg x) acc arrs
  = acc ++ concat (map concat_arg arrs).
Proof.
  revert acc. induction arrs as [| x rest IH]; intros acc; cbn.
  - rewrite app_nil_r. reflexivity.
  - rewrite IH, <- app_assoc. reflexivity.
Qed.

(** [flatten] joins the arrays in order, one level deep: it distributes
    over the concatenation of its argument, gives the concatenation of the
    arrays when every element is an array, whatever the arrays hold, and
    keeps an element that is not an array as it is. *)
Theorem flatten_one_level :
  (forall xs ys, flatten (xs ++ ys) = flatten xs ++ flatten ys) /\
  (forall ls : list (list value), flatten (map VArr ls) = concat ls) /\
  (forall arrs x, (forall l, x <> VArr l) ->
     flatten (arrs ++ [x]) = flatten arrs ++ [x]).
Proof.
  unfold flatten. split; [| split].
  - intros xs ys. rewrite !flatten_foldl, map_app, concat_app. reflexivity.
  - intros ls. rewrite flatten_foldl, map_map. cbn.
    rewrite map_id. reflexivity.
  - intros arrs x Hx. rewrite !flatten_foldl, map_app, concat_app. cbn.
    rewrite app_nil_r. destruct x; try reflexivity. destruct (Hx l eq_refl).
Qed.

End UtilsMore.

(** ** Document ids *)
Section IdMore.
Import JS Utils.

Lemma prefix_append (p s t : string) :
  String.prefix p s = true -> String.prefix p (String.append s t) = true.
Proof.
  revert s. induction p as [| c p IH]; intros s H.
  { destruct s; [destruct t |]; reflexivity. }
  destruct s as [| d s]; [discriminate |].
  change (String.append (String d s) t) with (String d (String.append s t)).
  cbn in *. destruct (Ascii.ascii_dec c d); [apply IH, H | discriminate].
Qed.

Lemma prefix_char_append (c : Ascii.ascii) (s t : string) :
  s <> EmptyString ->
  String.prefix (String c EmptyString) (String.append s t)
  = String.prefix (String c EmptyString) s.
Proof.
  destruct s as [| d s]; [contradiction |]. intros _.
  change (String.append (String d s) t) with (String d (String.append s t)).
  cbn [String.prefix]. destruct (Ascii.ascii_dec c d); [| reflexivity].
  destruct (String.append s t); destruct s; reflexivity.
Qed.

Lemma invalidIdError_string (s : string) :
  invalidIdError (VStr s) = None <->
  s <> EmptyString /\
  (String.prefix "_" s = true ->
   String.prefix "_design" s = true \/ String.prefix "_local" s = true).
Proof.
  unfold invalidIdError. cbn [truthy]. rewrite negb_involutive.
  destruct (String.eqb_spec s "") as [-> | Hne].
  - split; [discriminate | intros [H _]; destruct (H eq_refl)].
  - destruct (String.prefix "_" s); cbn [andb].
    + destruct (String.prefix "_design" s); cbn [orb negb].
      * split; auto.
      * destruct (String.prefix "_local" s); cbn [negb].
        -- split; auto.
        -- split; [discriminate |]. intros [_ H].
           destruct (H eq_refl); discriminate.
    + split; [| reflexivity]. intros _. split; [assumption | discriminate].
Qed.

(** [invalidIdError] accepts exactly the non-empty strings that do not
    start with an underscore or start with [_design] or [_local]; whatever
    follows that start is accepted too, so an accepted id with anything
    appended is accepted. *)
Theorem invalidIdError_accepts (id : value) :
  (invalidIdError id = None <->
   exists s, id = VStr s /\ s <> EmptyString /\
     (String.prefix "_" s = true ->
      String.prefix "_design" s = true \/ String.prefix "_local" s = true)) /\
  (forall s t, id = VStr s -> invalidIdError id = None ->
     invalidIdError (VStr (String.append s t)) = None).
Proof.
  split.
  - split.
    + intros H. destruct id as [| | b | n | s | l | o];
        try (unfold invalidIdError in H; cbn in H; discriminate H).
      * unfold invalidIdError in H. cbn in H. destruct b; discriminate H.
      * unfold invalidIdError in H. cbn [truthy] in H.
        destruct (negb (negb (n =? 0)%Z)); discriminate H.
      * exists s. split; [reflexivity |]. apply invalidIdError_string, H.
    + intros (s & -> & H). apply invalidIdError_string, H.
  - intros s t -> H. apply invalidIdError_string in H as [Hne Hp].
    apply invalidIdError_string. split.
    + destruct s; [contradiction | discriminate].
    + intros Hu. rewrite prefix_char_append in Hu by assumption.
      destruct (Hp Hu) as [H | H]; [left | right]; apply prefix_append, H.
Qed.

Lemma invalidIdError_accepts_witness :
  invalidIdError (VStr "_design/by_date") = None.
Proof.
  apply (proj2 (invalidIdError_accepts (VStr "_design")) "_design" "/by_date");
    reflexivity.
Defined.

End IdMore.

(** ** Names of design-document functions *)
Section DesignDocNames.
Import JS Utils.
Import Stdlib.Strings.Ascii.

Local Abbreviation slashed a b := (String.append a (String "/" b)).

Lemma split_slash_nonempty (s : string) : split_slash s <> [].
Proof.
  destruct s as [| c s]; cbn; [discriminate |].
  destruct (is_slash c); [discriminate |].
  destruct (split_slash s); discriminate.
Qed.

Lemma join_split (s : string) : join_slash (split_slash s) = s.
Proof.
  induction s as [| c s IH]; [reflexivity |]. cbn [split_slash].
  destruct (is_slash c) eqn:Hc.
  - apply Ascii.eqb_eq in Hc as ->.
    destruct (split_slash s) as [| p ps] eqn:E; [destruct (split_slash_nonempty s E) |].
    change (String "/" (join_slash (p :: ps)) = String "/" s). rewrite IH. reflexivity.
  - destruct (split_slash s) as [| p ps] eqn:E; [destruct (split_slash_nonempty s E) |].
    destruct ps as [| q ps].
    + cbn in *. rewrite IH. reflexivity.
    + change (String c (String.append p (String "/" (join_slash (q :: ps)))) = String c s).
      change (String.append p (String "/" (join_slash (q :: ps))) = s) in IH.
      rewrite IH. reflexivity.
Qed.

Lemma split_slash_parts (s : string) :
  Forall (fun p => slash_free p = true) (split_slash s).
Proof.
  induction s as [| c s IH]; cbn [split_slash].
  - repeat constructor.
  - destruct (is_slash c) eqn:Hc.
    + constructor; [reflexivity | exact IH].
    + destruct (split_slash s) as [| p ps]; [repeat constructor; cbn; rewrite Hc; reflexivity |].
      inversion IH as [| ? ? Hp Hps]; subst. constructor; [| assumption].
      cbn. rewrite Hc, Hp. reflexivity.
Qed.

Lemma split_slash_free (s : string) :
  slash_free s = true -> split_slash s = [s].
Proof.
  induction s as [| c s IH]; [reflexivity |]. cbn.
  intros H. apply andb_true_iff in H as [Hc Hs]. apply negb_true_iff in Hc.
  rewrite Hc, (IH Hs). reflexivity.
Qed.

Lemma split_slashed (a b : string) :
  slash_free a = true -> split_slash (slashed a b) = a :: split_slash b.
Proof.
  induction a as [| c a IH]; intros H.
  - reflexivity.
  - cbn in H. apply andb_true_iff in H as [Hc Ha]. apply negb_true_iff in Hc.
    change (String.append (String c a) (String "/" b))
      with (String c (String.append a (String "/" b))).
    cbn [split_slash]. rewrite Hc, (IH Ha). reflexivity.
Qed.

Lemma split_slashed_length (a b : string) :
  length (split_slash b) < length (split_slash (slashed a b)).
Proof.
  induction a as [| x a IH].
  - change (length (split_slash b) < length (EmptyString :: split_slash b)).
    cbn [length]. lia.
  - change (String.append (String x a) (String "/" b)) with (String x (slashed a b)).
    cbn [split_slash]. destruct (is_slash x); [cbn [length]; lia |].
    destruct (split_slash (slashed a b)); cbn [length] in *; lia.
Qed.

Lemma slashed_nonempty (a b : string) : String.eqb (slashed a b) "" = false.
Proof. destruct a; reflexivity. Qed.

(** What [parseDesignDocFunctionName] returns, when it is not [null]. *)
Lemma parse_cases (s : string) (parts : list string) :
  parseDesignDocFunctionName s = Some parts ->
  exists a b, parts = [a; b] /\ slash_free a = true /\ slash_free b = true /\
    (s = slashed a b \/ (a = s /\ b = s)).
Proof.
  unfold parseDesignDocFunctionName.
  destruct (String.eqb s ""); [discriminate |].
  pose proof (split_slash_parts s) as Hfree. pose proof (join_split s) as Hjoin.
  destruct (split_slash s) as [| a [| b [| c rest]]]; cbn; try discriminate.
  - intros [= <-]. cbn in Hjoin. subst a. inversion Hfree; subst.
    exists s, s. repeat split; try assumption. right. split; reflexivity.
  - intros [= <-]. inversion Hfree as [| ? ? Ha Hrest]; subst.
    inversion Hrest; subst. exists a, b. repeat split; try assumption.
    left. reflexivity.
Qed.

(** A name [ddoc/fun] is split into its two parts; a name without a slash
    stands for both parts; the empty name and a name with more than one
    slash have no parts.  Either part may be empty. *)
Theorem parseDesignDocFunctionName_parts (s : string) :
  (forall parts, parseDesignDocFunctionName s = Some parts ->
     exists a b, parts = [a; b] /\ slash_free a = true /\ slash_free b = true /\
       (s = slashed a b \/ (a = s /\ b = s))) /\
  (forall a b, slash_free a = true -> slash_free b = true -> s = slashed a b ->
     parseDesignDocFunctionName s = Some [a; b]) /\
  (slash_free s = true -> s <> EmptyString ->
     parseDesignDocFunctionName s = Some [s; s]) /\
  (forall a b c, s = slashed a (slashed b c) -> parseDesignDocFunctionName s = None) /\
  (s = EmptyString -> parseDesignDocFunctionName s = None).
Proof.
  split; [apply parse_cases | split; [| split; [| split; [| intros ->; reflexivity]]]].
  - intros a b Ha Hb ->. unfold parseDesignDocFunctionName.
    rewrite slashed_nonempty, split_slashed, split_slash_free by assumption.
    reflexivity.
  - intros Hs Hne. unfold parseDesignDocFunctionName.
    destruct (String.eqb_spec s ""); [contradiction |].
    rewrite split_slash_free by assumption. reflexivity.
  - intros a b c ->.
    destruct (parseDesignDocFunctionName (slashed a (slashed b c))) as [parts|] eqn:E;
      [| reflexivity].
    exfalso. revert E. unfold parseDesignDocFunctionName.
    rewrite slashed_nonempty.
    assert (2 < length (split_slash (slashed a (slashed b c)))) as Hlen.
    { pose proof (split_slashed_length a (slashed b c)).
      pose proof (split_slashed_length b c).
      pose proof (split_slash_nonempty c).
      destruct (split_slash c); [contradiction |]. cbn [length] in *. lia. }
    destruct (length (split_slash (slashed a (slashed b c)))) as [| [| [| n]]];
      try lia. discriminate.
Qed.

(** A normalized name is the same when it is normalized again, and it
    parses to the parts that the name it came from parses to. *)
Theorem normalizeDesignDocFunctionName_idempotent (s t : string) :
  normalizeDesignDocFunctionName s = Some t ->
  normalizeDesignDocFunctionName t = Some t /\
  parseDesignDocFunctionName t = parseDesignDocFunctionName s.
Proof.
  unfold normalizeDesignDocFunctionName.
  destruct (parseDesignDocFunctionName s) as [parts|] eqn:E; [| discriminate].
  intros [= <-]. destruct (parse_cases s parts E) as (a & b & -> & Ha & Hb & _).
  assert (parseDesignDocFunctionName (join_slash [a; b]) = Some [a; b]) as Hp.
  { unfold parseDesignDocFunctionName.
    change (join_slash [a; b]) with (slashed a b).
    rewrite slashed_nonempty, split_slashed, split_slash_free by assumption.
    reflexivity. }
  rewrite Hp. split; reflexivity.
Qed.

Lemma normalizeDesignDocFunctionName_idempotent_witness :
  normalizeDesignDocFunctionName "posts/posts" = Some "posts/posts" /\
  parseDesignDocFunctionName "posts/posts" = parseDesignDocFunctionName "posts".
Proof.
  apply (normalizeDesignDocFunctionName_idempotent "posts" "posts/posts").
  reflexivity.
Defined.

End DesignDocNames.

(** ** [upsert] *)
Section UpsertMore.
Import JS Upsert.
Local Open Scope Z_scope.

Variable docId : string.
Variable diffFun : gmap string value -> option (gmap string value).

(** Every request of [upsert] is for [docId]: each [put] follows a [get],
    and the document put has [docId] as its [_id] and, as its [_rev], the
    [_rev] of the document that this [get] read ([undefined] after a 404),
    whatever [diffFun] made of the two. *)
Theorem upsert_puts_stamped (rounds : list round) :
  puts_follow docId (reads_of rounds) (fst (upsert rounds docId diffFun)).
Proof.
  induction rounds as [| r rest IH]; [cbn; reflexivity |].
  cbn [upsert reads_of omap list_omap].
  fold (reads_of rest).
  destruct (read_doc (got r)) as [rejected | doc]; [cbn; reflexivity |].
  destruct (diffFun doc) as [newDoc |]; [| cbn; reflexivity].
  assert (stamp docId (rev_of doc) newDoc !! "_id" = Some (VStr docId) /\
          stamp docId (rev_of doc) newDoc !! "_rev" = Some (rev_of doc)) as [Hid Hrev].
  { unfold stamp. split.
    - rewrite lookup_insert_ne by discriminate. apply lookup_insert_eq.
    - apply lookup_insert_eq. }
  destruct (put r) as [rev | status].
  - cbn. auto.
  - destruct (status =? 409).
    + destruct (upsert rest docId diffFun) as [requests result]. cbn in *. auto.
    + cbn. auto.
Qed.

Lemma upsert_conflict (r : round) (rest : list round) :
  conflict_round diffFun r ->
  exists doc', upsert (r :: rest) docId diffFun
    = (Get docId :: Put doc' :: fst (upsert rest docId diffFun),
       snd (upsert rest docId diffFun)).
Proof.
  intros [(doc & Hread & Hdiff) Hput]. cbn [upsert]. rewrite Hread, Hput.
  destruct (diffFun doc) as [newDoc |]; [| contradiction].
  change (409 =? 409) with true. cbv iota.
  destruct (upsert rest docId diffFun). eexists. reflexivity.
Qed.

Lemma upsert_conflicts (conflicts rest : list round) :
  Forall (conflict_round diffFun) conflicts ->
  snd (upsert (conflicts ++ rest) docId diffFun) = snd (upsert rest docId diffFun) /\
  length (fst (upsert (conflicts ++ rest) docId diffFun))
  = (2 * length conflicts + length (fst (upsert rest docId diffFun)))%nat.
Proof.
  induction 1 as [| r conflicts Hr _ IH]; [split; reflexivity |].
  destruct (upsert_conflict r (conflicts ++ rest) Hr) as [doc' E].
  change ((r :: conflicts) ++ rest) with (r :: conflicts ++ rest).
  rewrite E. cbn [fst snd length]. destruct IH as [-> ->]. split; [reflexivity | lia].
Qed.

(** After any number of rounds lost to conflicts, the first other round
    decides: a [put] that succeeds resolves to [updated: true] with the
    [rev] of that answer; a falsy [diffFun] resolves to [updated: false]
    with the [_rev] read, without a [put]; a failed [get] other than a 404,
    or a failed [put] other than a 409, rejects with that error.  Later
    rounds are not looked at, and each lost round costs one [get] and one
    [put]. *)
Theorem upsert_after_conflicts (conflicts later : list round) (r : round) :
  Forall (conflict_round diffFun) conflicts ->
  let run := upsert (conflicts ++ r :: later) docId diffFun in
  (forall status, got r = GetFails status -> status <> 404 ->
     snd run = Some (Rejected status) /\
     length (fst run) = (2 * length conflicts + 1)%nat) /\
  (forall doc, read_doc (got r) = inr doc ->
     (diffFun doc = None ->
        snd run = Some (Resolved false (rev_of doc)) /\
        length (fst run) = (2 * length conflicts + 1)%nat) /\
     (diffFun doc <> None ->
        length (fst run) = (2 * length conflicts + 2)%nat \/
        put r = PutFails 409) /\
     (diffFun doc <> None -> forall rev, put r = PutOk rev ->
        snd run = Some (Resolved true rev)) /\
     (diffFun doc <> None -> forall status, put r = PutFails status ->
        status <> 409 -> snd run = Some (Rejected status))).
Proof.
  intros Hc run. destruct (upsert_conflicts conflicts (r :: later) Hc) as [Hsnd Hlen].
  subst run. rewrite Hsnd, Hlen. clear Hsnd Hlen. cbn [upsert]. split.
  - intros status Hgot Hne. rewrite Hgot. cbn [read_doc].
    destruct (Z.eqb_spec status 404); [contradiction |]. split; reflexivity.
  - intros doc Hread. rewrite Hread. split; [| split; [| split]].
    + intros ->. split; reflexivity.
    + intros Hd. destruct (diffFun doc); [| contradiction].
      destruct (put r) as [rev | status]; [left; reflexivity |].
      destruct (Z.eqb_spec status 409) as [-> | Hne]; [right; reflexivity |].
      left. reflexivity.
    + intros Hd rev Hput. destruct (diffFun doc); [| contradiction].
      rewrite Hput. reflexivity.
    + intros Hd status Hput Hne. destruct (diffFun doc); [| contradiction].
      rewrite Hput. destruct (Z.eqb_spec status 409); [contradiction |]. reflexivity.
Qed.

(** [upsert] stays unsettled exactly as long as every round is lost to a
    conflict: it retries without a bound. *)
Theorem upsert_pending_iff_conflicts (rounds : list round) :
  snd (upsert rounds docId diffFun) = None <->
  Forall (conflict_round diffFun) rounds.
Proof.
  split.
  - induction rounds as [| r rest IH]; [constructor |].
    cbn [upsert]. destruct (read_doc (got r)) as [rejected | doc] eqn:Hread;
      [discriminate |].
    destruct (diffFun doc) as [newDoc |] eqn:Hdiff; [| discriminate].
    destruct (put r) as [rev | status] eqn:Hput; [discriminate |].
    destruct (Z.eqb_spec status 409) as [-> | Hne]; [| discriminate].
    destruct (upsert rest docId diffFun) as [requests result]. cbn [snd] in *.
    intros ->. constructor; [| apply IH; reflexivity].
    split; [| assumption]. exists doc. split; [assumption | congruence].
  - intros H. pose proof (upsert_conflicts rounds [] H) as [Hsnd _].
    rewrite app_nil_r in Hsnd. rewrite Hsnd. reflexivity.
Qed.

End UpsertMore.

Section UpsertSamples.
Import JS Upsert.

Lemma upsert_after_conflicts_witness :
  snd (upsert two_conflicts "counter" bump) = Some (Resolved true (VStr "4-d")) /\
  length (fst (upsert two_conflicts "counter" bump)) = 6.
Proof.
  assert (Forall (conflict_round bump) (take 2 two_conflicts)) as Hc.
  { repeat constructor; eexists; (split; [reflexivity | discriminate]). }
  pose proof (upsert_after_conflicts "counter" bump (take 2 two_conflicts) []
                (Round (GetDoc (counter "3-c" 6)) (PutOk (VStr "4-d"))) Hc) as [_ H].
  destruct (H (counter "3-c" 6) eq_refl) as (_ & _ & Hok & _).
  split; [apply Hok; [discriminate | reflexivity] | reflexivity].
Defined.

End UpsertSamples.

(** ** [toPromise] *)
Section PromisifyMore.
Import JS Utils Promisify.

Lemma toPromise_snoc (signals : list signal) (sig : signal) :
  toPromise (signals ++ [sig]) = step (toPromise signals) sig.
Proof. unfold toPromise. rewrite foldl_app. reflexivity. Qed.

Lemma step_settled (st : state) (sig : signal) :
  promise st <> Pending -> promise (step st sig) = promise st.
Proof.
  intros H. destruct sig as [err mesg | resp thenable | e]; cbn.
  - destruct (called st); cbn; [reflexivity |].
    destruct (promise st); [contradiction | reflexivity ..].
  - destruct (truthy resp && thenable); cbn; [| reflexivity].
    destruct (promise st); [contradiction | reflexivity ..].
  - destruct (promise st); [contradiction | reflexivity ..].
Qed.

Lemma no_callback (signals : list signal) :
  existsb is_callback signals = false <-> List.filter is_callback signals = [].
Proof.
  induction signals as [| sig signals IH]; [split; reflexivity |].
  cbn. destruct (is_callback sig); cbn; [split; discriminate | exact IH].
Qed.

Lemma toPromise_called (signals : list signal) :
  called (toPromise signals) = existsb is_callback signals /\
  complaints (toPromise signals) = Nat.pred (length (List.filter is_callback signals)).
Proof.
  induction signals as [| sig signals [IHc IHn]] using rev_ind; [split; reflexivity |].
  rewrite toPromise_snoc, existsb_app, List.filter_app, length_app. cbn [existsb].
  destruct sig as [err mesg | resp thenable | e]; cbn.
  - destruct (called (toPromise signals)) eqn:Hc; cbn.
    + rewrite <- IHc, IHn. split; [reflexivity |].
      destruct (List.filter is_callback signals) eqn:E; cbn; [| lia].
      apply no_callback in E. congruence.
    + symmetry in IHc. apply no_callback in IHc.
      rewrite orb_true_r, IHn, IHc. split; reflexivity.
  - rewrite orb_false_r, Nat.add_0_r.
    destruct (truthy resp && thenable); cbn; split; assumption.
  - rewrite orb_false_r, Nat.add_0_r. split; assumption.
Qed.

Lemma pending_step (st : state) (sig : signal) :
  promise (step st sig) = Pending -> promise st = Pending.
Proof.
  intros H. destruct (promise st) eqn:Hp; [reflexivity | ..];
    rewrite step_settled in H by (rewrite Hp; discriminate); congruence.
Qed.

Lemma pending_uncalled (signals : list signal) :
  promise (toPromise signals) = Pending -> called (toPromise signals) = false.
Proof.
  induction signals as [| sig signals IH] using rev_ind; [reflexivity |].
  rewrite toPromise_snoc. intros H. pose proof (pending_step _ _ H) as Hp.
  specialize (IH Hp). revert H.
  destruct sig as [err mesg | resp thenable | e]; cbn; rewrite ?IH, ?Hp; cbn.
  - destruct (truthy err); discriminate.
  - destruct (truthy resp && thenable); cbn; intros _; first [exact IH | reflexivity].
  - discriminate.
Qed.

Lemma toPromise_settled (signals later : list signal) :
  promise (toPromise signals) <> Pending ->
  promise (toPromise (signals ++ later)) = promise (toPromise signals).
Proof.
  intros H. induction later as [| sig later IH] using rev_ind.
  - rewrite app_nil_r. reflexivity.
  - rewrite app_assoc, toPromise_snoc, step_settled; rewrite IH; auto.
Qed.

Lemma pending_iff_idle (signals : list signal) :
  promise (toPromise signals) = Pending <-> forallb idle signals = true.
Proof.
  induction signals as [| sig signals IH] using rev_ind; [split; reflexivity |].
  rewrite toPromise_snoc, forallb_app. cbn [forallb]. rewrite andb_true_r.
  rewrite andb_true_iff, <- IH. split.
  - intros H. pose proof (pending_step _ _ H) as Hp.
    split; [exact Hp |]. pose proof (pending_uncalled signals Hp) as Hc.
    revert H. destruct sig as [err mesg | resp thenable | e]; cbn;
      rewrite ?Hc, ?Hp; cbn.
    + destruct (truthy err); discriminate.
    + destruct (truthy resp && thenable); cbn; [discriminate | reflexivity].
    + discriminate.
  - intros [Hp Hidle]. destruct sig as [err mesg | resp thenable | e];
      try discriminate. cbn in Hidle |- *.
    apply negb_true_iff in Hidle. rewrite Hidle. exact Hp.
Qed.

(** The promise of [toPromise] is settled by the first thing the wrapped
    function does about it and by nothing after: once it is not pending,
    further callbacks, returns and exceptions leave it as it is; each call
    of the callback after the first one throws; and the promise is pending
    exactly while the function has done nothing but return a value that is
    not a thenable, so that a function that returns its result instead of
    calling back leaves the promise pending for good. *)
Theorem toPromise_first_signal_wins (signals : list signal) :
  (forall later, promise (toPromise signals) <> Pending ->
     promise (toPromise (signals ++ later)) = promise (toPromise signals)) /\
  complaints (toPromise signals)
    = Nat.pred (length (List.filter is_callback signals)) /\
  (promise (toPromise signals) = Pending <-> forallb idle signals = true).
Proof.
  split; [| split].
  - intros later. apply toPromise_settled.
  - apply toPromise_called.
  - apply pending_iff_idle.
Qed.

Lemma toPromise_first_signal_wins_witness :
  promise (toPromise [Returns VUndefined false; Callback VNull (VStr "ok");
                      Callback (VStr "late") VUndefined; Throws (VStr "once")])
  = Fulfilled (VStr "ok").
Proof.
  apply (proj1 (toPromise_first_signal_wins
                  [Returns VUndefined false; Callback VNull (VStr "ok")])
               [Callback (VStr "late") VUndefined; Throws (VStr "once")]).
  discriminate.
Defined.

(** The two styles agree.  When the wrapped function, having returned no
    thenable, calls back, the caller's callback gets what the promise gets:
    [usedCB(err)] and a rejection by [err] for a truthy [err];
    [usedCB(null, mesg)] and [mesg] as the result otherwise, also for an
    [err] such as [0] or the empty string.  When the function throws
    instead, the exception is both the rejection and the callback's error;
    when it returns a thenable, the promise follows that.  Whatever comes
    later changes none of this. *)
Theorem toPromise_callback_style (idles later : list signal) (sig : signal) :
  forallb idle idles = true ->
  let st := toPromise (idles ++ sig :: later) in
  match sig with
  | Callback err mesg =>
      if truthy err
      then promise st = Rejected err /\ usedCB_call (promise st) = Some (err, VUndefined)
      else promise st = Fulfilled mesg /\ usedCB_call (promise st) = Some (VNull, mesg)
  | Throws e =>
      promise st = Rejected e /\ usedCB_call (promise st) = Some (e, VUndefined)
  | Returns resp thenable =>
      truthy resp && thenable = true -> promise st = Follows resp
  end.
Proof.
  intros Hidle st.
  pose proof (proj2 (pending_iff_idle idles) Hidle) as Hp.
  pose proof (pending_uncalled idles Hp) as Hc.
  assert (promise (step (toPromise idles) sig) <> Pending ->
          promise st = promise (step (toPromise idles) sig)) as Hst.
  { intros H. subst st. rewrite <- toPromise_snoc in *.
    change (idles ++ sig :: later) with (idles ++ [sig] ++ later).
    rewrite app_assoc. apply toPromise_settled, H. }
  destruct sig as [err mesg | resp thenable | e]; cbn in Hst;
    rewrite ?Hc, ?Hp in Hst; cbn in Hst.
  - destruct (truthy err); rewrite Hst by discriminate; split; reflexivity.
  - intros Hthen. rewrite Hthen in Hst. cbn in Hst.
    rewrite Hst by discriminate. reflexivity.
  - rewrite Hst by discriminate. split; reflexivity.
Qed.

Lemma toPromise_callback_style_witness :
  promise (toPromise [Returns VUndefined false; Callback (VNum 0) (VStr "ok");
                      Callback (VStr "late") VUndefined])
    = Fulfilled (VStr "ok") /\
  usedCB_call (promise (toPromise [Returns VUndefined false;
                                   Callback (VNum 0) (VStr "ok");
                                   Callback (VStr "late") VUndefined]))
    = Some (VNull, VStr "ok").
Proof.
  apply (toPromise_callback_style [Returns VUndefined false]
           [Callback (VStr "late") VUndefined] (Callback (VNum 0) (VStr "ok"))).
  reflexivity.
Defined.

End PromisifyMore.

